(** * Deterministic corpus partitioning in the transistor image tutorial

    Section 1.3 of [hardware_image/transistor_image_tutorial.ipynb] divides
    the parsed documents into train/dev/test:

<<
    docs = session.query(Document).order_by(Document.name).all()
    ld   = len(docs)

    train_docs = set()
    dev_docs   = set()
    test_docs  = set()
    splits = (0.5, 0.75)
    data = [(doc.name, doc) for doc in docs]
    data.sort(key=lambda x: x[0])
    for i, (doc_name, doc) in enumerate(data):
        if i < splits[0] * ld:
            train_docs.add(doc)
        elif i < splits[1] * ld:
            dev_docs.add(doc)
        else:
            test_docs.add(doc)
    from pprint import pprint
    pprint([x.name for x in train_docs])
>>

    The cell is embedded by explicit state passing over a record of the
    notebook's variables.

    - A [Document] is a Python object: the notebook holds references to it
      ([ref]), the objects themselves live in [store].  Python sets of
      such objects compare by identity, so the three accumulators are
      [gset ref].
    - [docs] is what the query of the first line returned; the order the
      database gives it is not assumed (the cell sorts again).
    - Names are [string]s ordered by [String.compare], the byte-wise
      lexicographic order (Python compares [str] by code point, and
      UTF-8 keeps that order).
    - [list.sort] is a stable sort that compares keys with [<] only; its
      result is computed here by a stable insertion sort.
    - The statement [splits = (0.5, 0.75)] is generalised to an argument
      ([partition_with]); [partition] is the cell with its own constants.
    - The split points are Python floats: [splits[k] * ld] is a binary64
      product, rounded to nearest, and [i < ...] compares with the rounded
      product.  The loop is embedded twice.
      [float_cell] is the loop in binary64, on the primitive floats, for
      any split points; where a cut falls is stated and proved there (the
      rank rule, and what happens with split points in the wrong order),
      from the Standard Library's specification of the float operations.
      [loop_body] and [partition_with] read the comparison in exact
      arithmetic over [Q].  With the constants of the source that is the
      cell itself: 0.5 and 0.75 are dyadic and their products with a list
      length below 2^51 are exact ([binary64_branch] evaluates both
      comparisons for lists of up to 256 documents); so it is for 0, for 1
      and for equal split points.  For other split points the rational
      loop may cut one rank away from the code (0.28 * 25 is
      7.000000000000001 in binary64), and only statements that hold
      wherever the cuts fall are made over it. *)

From Stdlib Require Import QArith Qround.
From Stdlib Require PrimFloat Uint63 Floats.
From stdpp Require Import gmap strings list sorting.

(** ** Documents and the notebook state *)

Record Document := { name : string }.

Definition ref := nat.

(** The variables of the notebook.  The record is generic in the type [F]
    of the split points: exact rationals in [partition_with], binary64
    floats in [float_cell.partition_with].  [stdout] records the calls of
    [pprint], one entry per call: the list that was handed to it. *)
Record notebook_of {F : Type} := {
  store      : ref → Document;
  docs       : list ref;
  ld         : nat;
  train_docs : gset ref;
  dev_docs   : gset ref;
  test_docs  : gset ref;
  splits     : F * F;
  data       : list (string * ref);
  stdout     : list (list string);
}.
Arguments notebook_of : clear implicits.

Abbreviation notebook := (notebook_of Q).

(** Assignments to the variables the cell writes. *)

Definition set_ld {F} (v : nat) (s : notebook_of F) : notebook_of F :=
  {| store := store s; docs := docs s; ld := v;
     train_docs := train_docs s; dev_docs := dev_docs s;
     test_docs := test_docs s; splits := splits s; data := data s;
     stdout := stdout s |}.

Definition set_train_docs {F} (v : gset ref) (s : notebook_of F) : notebook_of F :=
  {| store := store s; docs := docs s; ld := ld s;
     train_docs := v; dev_docs := dev_docs s;
     test_docs := test_docs s; splits := splits s; data := data s;
     stdout := stdout s |}.

Definition set_dev_docs {F} (v : gset ref) (s : notebook_of F) : notebook_of F :=
  {| store := store s; docs := docs s; ld := ld s;
     train_docs := train_docs s; dev_docs := v;
     test_docs := test_docs s; splits := splits s; data := data s;
     stdout := stdout s |}.

Definition set_test_docs {F} (v : gset ref) (s : notebook_of F) : notebook_of F :=
  {| store := store s; docs := docs s; ld := ld s;
     train_docs := train_docs s; dev_docs := dev_docs s;
     test_docs := v; splits := splits s; data := data s;
     stdout := stdout s |}.

Definition set_splits {F} (v : F * F) (s : notebook_of F) : notebook_of F :=
  {| store := store s; docs := docs s; ld := ld s;
     train_docs := train_docs s; dev_docs := dev_docs s;
     test_docs := test_docs s; splits := v; data := data s;
     stdout := stdout s |}.

Definition set_data {F} (v : list (string * ref)) (s : notebook_of F) : notebook_of F :=
  {| store := store s; docs := docs s; ld := ld s;
     train_docs := train_docs s; dev_docs := dev_docs s;
     test_docs := test_docs s; splits := splits s; data := v;
     stdout := stdout s |}.


(** [doc.name] *)
Definition name_of {F} (s : notebook_of F) (doc : ref) : string :=
  name (store s doc).

(** ** Python primitives used by the cell *)

(** An [int] as a rational, for the mixed comparison [i < splits[k] * ld]. *)
Definition of_int (n : nat) : Q := inject_Z (Z.of_nat n).

(** [a < b] on rationals, as a boolean. *)
Definition Qltb (a b : Q) : bool :=
  (Qnum a * Zpos (Qden b) <? Qnum b * Zpos (Qden a))%Z.

(** [data.sort(key=lambda x: x[0])]: stable, keys compared with [<]. *)
Fixpoint insert_by_key (x : string * ref) (l : list (string * ref))
  : list (string * ref) :=
  match l with
  | [] => [x]
  | y :: l' =>
      if String.ltb y.1 x.1 then y :: insert_by_key x l' else x :: y :: l'
  end.

Definition sort_by_key (l : list (string * ref)) : list (string * ref) :=
  foldr insert_by_key [] l.

(** [enumerate(data)], counting from [k]. *)
Fixpoint enumerate_from {A} (k : nat) (l : list A) : list (nat * A) :=
  match l with
  | [] => []
  | x :: l' => (k, x) :: enumerate_from (S k) l'
  end.

Definition enumerate {A} (l : list A) : list (nat * A) := enumerate_from 0 l.

(** ** The cell *)

(** Body of the [for] loop, the comparisons in exact arithmetic. *)
Definition loop_body (i : nat) (doc : ref) (s : notebook) : notebook :=
  if Qltb (of_int i) ((splits s).1 * of_int (ld s)) then
    set_train_docs ({[doc]} ∪ train_docs s) s
  else if Qltb (of_int i) ((splits s).2 * of_int (ld s)) then
    set_dev_docs ({[doc]} ∪ dev_docs s) s
  else
    set_test_docs ({[doc]} ∪ test_docs s) s.

(** [for i, (doc_name, doc) in enumerate(data): ...] over the items [l]. *)
Fixpoint for_loop (l : list (nat * (string * ref))) (s : notebook)
  : notebook :=
  match l with
  | [] => s
  | (i, (doc_name, doc)) :: l' => for_loop l' (loop_body i doc s)
  end.

(** From [ld = len(docs)] to the end of the loop, with the split points
    [sp] in place of the constants. *)
Definition partition_with (sp : Q * Q) (s : notebook) : notebook :=
  let s := set_ld (length (docs s)) s in
  let s := set_train_docs ∅ s in
  let s := set_dev_docs ∅ s in
  let s := set_test_docs ∅ s in
  let s := set_splits sp s in
  let s := set_data ((λ doc, (name_of s doc, doc)) <$> docs s) s in
  let s := set_data (sort_by_key (data s)) s in
  for_loop (enumerate (data s)) s.

(** The same with the constants of the source, [splits = (0.5, 0.75)]. *)
Definition partition (s : notebook) : notebook :=
  partition_with (1 # 2, 3 # 4)%Q s.



(** The ways a run can end.  No statement of the cell raises, so a run
    always completes. *)
Inductive exception := InvalidArgument.

Inductive outcome {F : Type} :=
  | Completed (s : notebook_of F)
  | Raised (e : exception).

Definition run_partition (sp : Q * Q) (s : notebook) : outcome :=
  Completed (partition_with sp s).

(** A notebook in which [docs] holds the references [l] and the object
    [r] is named [nm r]; the other variables are not yet bound. *)
Definition fresh (nm : ref → string) (l : list ref) : notebook :=
  {| store := λ r, {| name := nm r |}; docs := l; ld := 0;
     train_docs := ∅; dev_docs := ∅; test_docs := ∅;
     splits := (0, 0)%Q; data := []; stdout := [] |}.

Definition abcd (r : ref) : string :=
  match r with 0 => "d" | 1 => "b" | 2 => "a" | _ => "c" end.

(** ** Notions the statements use *)

(** Keys ascending, weakly and strictly. *)
Definition key_le (x y : string * ref) : Prop := String.le x.1 y.1.
Definition key_lt (x y : string * ref) : Prop := String.ltb x.1 y.1 = true.

(** Documents in the store ascending by name, strictly. *)
Definition name_lt {F} (s : notebook_of F) (r1 r2 : ref) : Prop :=
  String.ltb (name_of s r1) (name_of s r2) = true.

(** The three labels, the accumulator of each, and the branch the loop
    body takes at rank [i] (of [loop_body], in exact arithmetic). *)
Inductive label := Train | Dev | Test.

#[global] Instance label_eq_dec : EqDecision label.
Proof. solve_decision. Defined.

Definition bucket {F} (c : label) (s : notebook_of F) : gset ref :=
  match c with
  | Train => train_docs s
  | Dev => dev_docs s
  | Test => test_docs s
  end.

Definition branch (sp : Q * Q) (N i : nat) : label :=
  if Qltb (of_int i) (sp.1 * of_int N) then Train
  else if Qltb (of_int i) (sp.2 * of_int N) then Dev
  else Test.

(** The branch of the loop body as the interpreter computes it, in
    binary64, with the constants of the source: [ld] is converted to a
    float, the product is rounded, and the integer [i] is compared with it
    (exactly, which for [i < 2^53] is the comparison of floats). *)
Module binary64.
Import PrimFloat.

Definition splits : float * float := (0.5, 0.75)%float.

Definition of_int (n : nat) : float := of_uint63 (Uint63.of_Z (Z.of_nat n)).

Definition branch (N i : nat) : label :=
  if ltb (of_int i) (mul splits.1 (of_int N)) then Train
  else if ltb (of_int i) (mul splits.2 (of_int N)) then Dev
  else Test.

End binary64.

(** ** Binary64 arithmetic, in integers

    The library specifies the primitive floats by [SpecFloat]; these are
    the notions in which the facts about rounding are stated. *)
Module ieee.
Import SpecFloat.
Local Open Scope Z_scope.

(** The order of the floats that are numbers, as a lexicographic key:
    class (infinities, negative, zero, positive), exponent, mantissa. *)
Definition float_key (x : spec_float) : option (Z * Z * Z) :=
  match x with
  | S754_nan => None
  | S754_infinity true => Some (-2, 0, 0)
  | S754_finite true m e => Some (-1, - e, - Zpos m)
  | S754_zero _ => Some (0, 0, 0)
  | S754_finite false m e => Some (1, e, Zpos m)
  | S754_infinity false => Some (2, 0, 0)
  end.

Definition ord_compare (a b : Z * Z * Z) : comparison :=
  match a.1.1 ?= b.1.1 with
  | Eq => match a.1.2 ?= b.1.2 with
          | Eq => a.2 ?= b.2
          | c => c
          end
  | c => c
  end.

Definition ord_lt (a b : Z * Z * Z) : Prop :=
  a.1.1 < b.1.1 ∨ (a.1.1 = b.1.1 ∧ (a.1.2 < b.1.2 ∨ (a.1.2 = b.1.2 ∧ a.2 < b.2))).

Definition ord_le (a b : Z * Z * Z) : Prop :=
  a.1.1 < b.1.1 ∨ (a.1.1 = b.1.1 ∧ (a.1.2 < b.1.2 ∨ (a.1.2 = b.1.2 ∧ a.2 <= b.2))).

(** [M / 2^k] rounded to nearest, ties to even: [q] is the quotient, [r]
    tells that the remainder reaches one half, [s] that it is not exactly
    zero or one half. *)
Definition rne (q : Z) (r s : bool) : Z :=
  if r then (if s then q + 1 else if Z.even q then q else q + 1) else q.

Definition rnd (M k : Z) : Z :=
  if k <=? 0 then M
  else rne (M / 2 ^ k) (2 ^ (k - 1) <=? M mod 2 ^ k)
           (negb (M mod 2 ^ (k - 1) =? 0)).

(** The exponent binary64 gives a number of magnitude [2^e], the rounding
    of [M * 2^E] to it, and the float that results. *)
Definition fexp64 (e : Z) : Z := Z.max (e - 53) (-1074).

Definition Rz (M E : Z) : Z * Z :=
  let ex := fexp64 (Zdigits2 M + E) in
  let m := rnd M (ex - E) in
  if 2 ^ 53 <=? m then (2 ^ 52, ex + 1) else (m, ex).

Definition pack (sx : bool) (me : Z * Z) : spec_float :=
  match me.1 with
  | Z.pos m => if me.2 <=? 971 then S754_finite sx m me.2 else S754_infinity sx
  | _ => S754_zero sx
  end.

(** The key of [pack false me]. *)
Definition pkey (me : Z * Z) : Z * Z * Z :=
  if me.1 <=? 0 then (0, 0, 0)
  else if me.2 <=? 971 then (1, me.2, me.1) else (2, 0, 0).

(** The key of a primitive float. *)
Definition fkey (x : PrimFloat.float) : option (Z * Z * Z) :=
  float_key (FloatOps.Prim2SF x).

End ieee.

(** ** The cell in binary64

    The cell as the interpreter runs it, for any split points:
    [splits[k] * ld] converts [ld] to a float and multiplies in binary64
    (round to nearest, ties to even), and [i < x] compares the integer
    with the float.  Python compares an [int] with a [float] exactly; the
    model converts [i] first, which is the same below 2^53, and a list is
    never that long. *)
Module float_cell.
Import PrimFloat.

(** [f * n], [i < x] and [x <= i] between a float and an [int] *)
Definition times (f : float) (n : nat) : float := mul f (binary64.of_int n).
Definition int_lt (i : nat) (x : float) : bool := ltb (binary64.of_int i) x.
Definition le_int (x : float) (i : nat) : bool := leb x (binary64.of_int i).

Definition loop_body (i : nat) (doc : ref) (s : notebook_of float)
  : notebook_of float :=
  if int_lt i (times (splits s).1 (ld s)) then
    set_train_docs ({[doc]} ∪ train_docs s) s
  else if int_lt i (times (splits s).2 (ld s)) then
    set_dev_docs ({[doc]} ∪ dev_docs s) s
  else
    set_test_docs ({[doc]} ∪ test_docs s) s.

Fixpoint for_loop (l : list (nat * (string * ref))) (s : notebook_of float)
  : notebook_of float :=
  match l with
  | [] => s
  | (i, (doc_name, doc)) :: l' => for_loop l' (loop_body i doc s)
  end.

Definition partition_with (sp : float * float) (s : notebook_of float)
  : notebook_of float :=
  let s := set_ld (length (docs s)) s in
  let s := set_train_docs ∅ s in
  let s := set_dev_docs ∅ s in
  let s := set_test_docs ∅ s in
  let s := set_splits sp s in
  let s := set_data ((λ doc, (name_of s doc, doc)) <$> docs s) s in
  let s := set_data (sort_by_key (data s)) s in
  for_loop (enumerate (data s)) s.

Definition run_partition (sp : float * float) (s : notebook_of float)
  : outcome :=
  Completed (partition_with sp s).

(** The branch the loop body takes at rank [i] of [N] documents. *)
Definition branch (sp : float * float) (N i : nat) : label :=
  if int_lt i (times sp.1 N) then Train
  else if int_lt i (times sp.2 N) then Dev
  else Test.

(** [0 <= f1 <= f2 <= 1] *)
Definition valid (sp : float * float) : Prop :=
  leb 0 sp.1 = true ∧ leb sp.1 sp.2 = true ∧ leb sp.2 1 = true.

Definition fresh (nm : ref → string) (l : list ref) : notebook_of float :=
  {| store := λ r, {| name := nm r |}; docs := l; ld := 0;
     train_docs := ∅; dev_docs := ∅; test_docs := ∅;
     splits := (0, 0)%float; data := []; stdout := [] |}.

(** Split points in the wrong order, for the examples. *)
Definition flipped : float * float := (0.5, 0.25)%float.

End float_cell.

(** [i < f * N], the comparison of the loop, as a proposition. *)
Definition below (f : Q) (N i : nat) : Prop := (of_int i < f * of_int N)%Q.

(** What the loop body leaves alone. *)
Definition same_frame {F} (s s' : notebook_of F) : Prop :=
  store s' = store s ∧ docs s' = docs s ∧ ld s' = ld s
  ∧ splits s' = splits s ∧ data s' = data s ∧ stdout s' = stdout s.

(** [data] as the comprehension builds it, and the documents in the order
    [data] has after the sort. *)
Definition pairs {F} (s : notebook_of F) : list (string * ref) :=
  (λ doc, (name_of s doc, doc)) <$> docs s.

Definition sorted_docs {F} (s : notebook_of F) : list ref :=
  (sort_by_key (pairs s)).*2.

(** The names of the documents in [docs] are pairwise different. *)
Definition unique_names {F} (s : notebook_of F) : Prop :=
  NoDup (name_of s <$> docs s).

(** The split points are ordered fractions. *)
Definition valid (sp : Q * Q) : Prop := (0 <= sp.1 ∧ sp.1 <= sp.2 ∧ sp.2 <= 1)%Q.

(** The scenario of the specification: four documents named a, b, c, d,
    held by the store in another order. *)
Definition abcd_nb : notebook := fresh abcd [0; 1; 2; 3].

(** ** Notions for the further properties *)

(** Names weakly ascending, for lists in which names may repeat. *)
Definition name_le {F} (s : notebook_of F) (r1 r2 : ref) : Prop :=
  String.le (name_of s r1) (name_of s r2).

(** [srt] is [docs] sorted by name by a stable sort: ascending by name,
    and the documents of each name are those of [docs], in the order
    [docs] has them. *)
Definition sorted_by_name {F} (s : notebook_of F) (srt : list ref) : Prop :=
  StronglySorted (name_le s) srt
  ∧ ∀ nm, filter (λ r, name_of s r = nm) srt
          = filter (λ r, name_of s r = nm) (docs s).

(** The notebook as the statements before the loop leave it. *)
Definition before_loop (sp : Q * Q) (s : notebook) : notebook :=
  {| store := store s; docs := docs s; ld := length (docs s);
     train_docs := ∅; dev_docs := ∅; test_docs := ∅;
     splits := sp; data := sort_by_key (pairs s); stdout := stdout s |}.

(** The calls [candidate_extractor.apply(docs, split=k)] of section 2.2.
    The extractor belongs to the framework; what the notebook decides is
    which documents it hands over under which split number.

<<
    %time candidate_extractor.apply(train_docs, split=0)
    ...
    for i, docs in enumerate([dev_docs, test_docs]):
        candidate_extractor.apply(docs, split=i+1)
>>

    (The loop variable of the second cell is called [docs]; no later cell
    reads it before the split cell binds [docs] again.) *)
Inductive call := Apply (ds : gset ref) (split : nat).

Definition apply_train (s : notebook) : list call :=
  [Apply (train_docs s) 0].

Fixpoint apply_loop (l : list (nat * gset ref)) : list call :=
  match l with
  | [] => []
  | (i, ds) :: l' => Apply ds (i + 1) :: apply_loop l'
  end.

Definition apply_rest (s : notebook) : list call :=
  apply_loop (enumerate [dev_docs s; test_docs s]).

Definition extraction (s : notebook) : list call :=
  apply_train s ++ apply_rest s.

(** "we reference the splits by 0/1/2 respectively" *)
Definition split_of (c : label) : nat :=
  match c with Train => 0 | Dev => 1 | Test => 2 end.

(** * Proofs *)

(** The cell on the scenario, run. *)
Example partition_abcd :
  let s := partition (fresh abcd [0; 1; 2; 3]) in
  data s = [("a", 2); ("b", 1); ("c", 3); ("d", 0)]
  ∧ train_docs s = {[2; 1]} ∧ dev_docs s = {[3]} ∧ test_docs s = {[0]}.
Proof. vm_compute. repeat split; reflexivity. Qed.

(** ** Order of names *)

Section name_order.
Implicit Types a b : string.

Lemma ltb_negb_leb a b : String.ltb a b = negb (String.leb b a).
Proof.
  unfold String.ltb, String.leb. rewrite (String.compare_antisym a b).
  by destruct (String.compare b a).
Qed.

Lemma ltb_false_le a b : String.ltb a b = false → String.le b a.
Proof.
  rewrite ltb_negb_leb. unfold String.le. by destruct (String.leb b a).
Qed.

Lemma ltb_true_le a b : String.ltb a b = true → String.le a b.
Proof.
  rewrite ltb_negb_leb. intros Hba.
  destruct (total String.le a b) as [?|Hle]; [done|].
  unfold String.le in Hle. by destruct (String.leb b a).
Qed.

Lemma ltb_true_iff a b : String.ltb a b = true ↔ String.le a b ∧ a ≠ b.
Proof.
  split.
  - intros Hlt. split; [by apply ltb_true_le|]. intros ->.
    rewrite ltb_negb_leb in Hlt.
    pose proof (reflexivity (R:=String.le) b) as Hr.
    unfold String.le in Hr. by destruct (String.leb b b).
  - intros [Hle Hne]. destruct (String.ltb a b) eqn:E; [done|].
    apply ltb_false_le in E. destruct Hne. by apply (anti_symm String.le).
Qed.
End name_order.

#[local] Instance key_le_trans : Transitive key_le.
Proof. intros x y z. unfold key_le. apply transitivity. Qed.

#[local] Instance name_lt_antisym {F} (s : notebook_of F) :
  AntiSymm (=) (name_lt s).
Proof.
  intros r1 r2 [H1 Hne]%ltb_true_iff [H2 _]%ltb_true_iff.
  destruct Hne. by apply (anti_symm String.le).
Qed.

(** ** The sort *)

Section sort.
Implicit Types (x y : string * ref) (l : list (string * ref)).

Lemma insert_by_key_perm x l : insert_by_key x l ≡ₚ x :: l.
Proof.
  induction l as [|y l IH]; simpl; [done|].
  destruct (String.ltb y.1 x.1); [|done].
  rewrite IH. apply Permutation_swap.
Qed.

Lemma sort_by_key_perm l : sort_by_key l ≡ₚ l.
Proof.
  induction l as [|x l IH]; simpl; [done|].
  by rewrite insert_by_key_perm, IH.
Qed.

Lemma insert_by_key_sorted x l :
  StronglySorted key_le l → StronglySorted key_le (insert_by_key x l).
Proof.
  induction 1 as [|y l Hs IH Hall]; simpl.
  - repeat constructor.
  - destruct (String.ltb y.1 x.1) eqn:E.
    + constructor; [done|]. rewrite insert_by_key_perm.
      constructor; [by apply ltb_true_le|done].
    + apply ltb_false_le in E. constructor; [by constructor|].
      constructor; [done|].
      eapply Forall_impl; [exact Hall|]. intros z Hz.
      by trans y.
Qed.

Lemma sort_by_key_sorted l : StronglySorted key_le (sort_by_key l).
Proof.
  induction l; simpl; [constructor|by apply insert_by_key_sorted].
Qed.

Lemma sorted_strict l :
  NoDup l.*1 → StronglySorted key_le l → StronglySorted key_lt l.
Proof.
  induction l as [|x l IH]; [constructor|].
  rewrite fmap_cons, NoDup_cons. intros [Hx Hnd].
  inversion_clear 1 as [|?? Hs Hall]. constructor; [by apply IH|].
  apply Forall_forall. intros y Hy.
  apply ltb_true_iff. split.
  - by eapply Forall_forall in Hall.
  - intros Heq. apply Hx. rewrite Heq. by apply list_elem_of_fmap_2.
Qed.

Lemma sort_by_key_strict l :
  NoDup l.*1 → StronglySorted key_lt (sort_by_key l).
Proof.
  intros Hnd. apply sorted_strict; [|apply sort_by_key_sorted].
  by rewrite sort_by_key_perm.
Qed.
End sort.

(** ** The loop *)

Section loop.
Implicit Types (s : notebook) (c : label) (r : ref).

Lemma Qltb_lt a b : Qltb a b = true ↔ (a < b)%Q.
Proof. unfold Qltb, Qlt. apply Z.ltb_lt. Qed.

Lemma Qltb_below f N i : Qltb (of_int i) (f * of_int N) = true ↔ below f N i.
Proof. apply Qltb_lt. Qed.

Lemma branch_Train sp N i : branch sp N i = Train ↔ below sp.1 N i.
Proof.
  unfold branch. rewrite <- Qltb_below.
  destruct (Qltb _ (sp.1 * _)); [done|]. by destruct (Qltb _ _).
Qed.

Lemma branch_Dev sp N i :
  branch sp N i = Dev ↔ ¬ below sp.1 N i ∧ below sp.2 N i.
Proof.
  unfold branch. rewrite <- !Qltb_below.
  destruct (Qltb _ (sp.1 * _)); [intuition congruence|].
  destruct (Qltb _ _); intuition congruence.
Qed.

Lemma branch_Test sp N i :
  branch sp N i = Test ↔ ¬ below sp.1 N i ∧ ¬ below sp.2 N i.
Proof.
  unfold branch. rewrite <- !Qltb_below.
  destruct (Qltb _ (sp.1 * _)); [intuition congruence|].
  destruct (Qltb _ _); intuition congruence.
Qed.

Lemma loop_body_frame i r s : same_frame s (loop_body i r s).
Proof.
  unfold loop_body, same_frame.
  destruct (Qltb _ _); [done|]. by destruct (Qltb _ _).
Qed.

Lemma for_loop_frame l s : same_frame s (for_loop l s).
Proof.
  revert s. induction l as [|[i [nm r]] l IH]; intros s; simpl; [done|].
  destruct (IH (loop_body i r s)) as (?&?&?&?&?&?).
  destruct (loop_body_frame i r s) as (?&?&?&?&?&?).
  unfold same_frame. repeat split; congruence.
Qed.

Lemma bucket_Train {F} (s : notebook_of F) : bucket Train s = train_docs s.
Proof. done. Qed.

Lemma bucket_Dev {F} (s : notebook_of F) : bucket Dev s = dev_docs s.
Proof. done. Qed.

Lemma bucket_Test {F} (s : notebook_of F) : bucket Test s = test_docs s.
Proof. done. Qed.

Lemma bucket_loop_body c i r s :
  bucket c (loop_body i r s) =
  if decide (branch (splits s) (ld s) i = c)
  then {[r]} ∪ bucket c s else bucket c s.
Proof.
  unfold loop_body, branch.
  destruct (Qltb _ (_.1 * _)); [by destruct c|].
  destruct (Qltb _ _); by destruct c.
Qed.

Lemma elem_of_bucket_for_loop c l k s r :
  r ∈ bucket c (for_loop (enumerate_from k l) s) ↔
  r ∈ bucket c s
  ∨ ∃ i nm, l !! i = Some (nm, r) ∧ branch (splits s) (ld s) (k + i) = c.
Proof.
  revert k s. induction l as [|[nm' r'] l IH]; intros k s; simpl.
  { split; [by left|]. intros [?|(i&nm&Hi&_)]; [done|].
    by rewrite lookup_nil in Hi. }
  rewrite IH, bucket_loop_body.
  destruct (loop_body_frame k r' s) as (_&_&->&->&_&_).
  split.
  - intros [Hin|(i&nm&Hi&Hb)].
    + case_decide as Hc; [|by left].
      apply elem_of_union in Hin as [->%elem_of_singleton|?]; [|by left].
      right. exists 0, nm'. by rewrite Nat.add_0_r.
    + right. exists (S i), nm. by rewrite Nat.add_succ_r.
  - intros [Hin|(i&nm&Hi&Hb)].
    + left. case_decide; [|done]. apply elem_of_union. by right.
    + destruct i as [|i]; simpl in Hi.
      * injection Hi as -> ->. rewrite Nat.add_0_r in Hb.
        left. rewrite decide_True by done.
        apply elem_of_union. left. by apply elem_of_singleton.
      * right. exists i, nm. by rewrite Nat.add_succ_r in Hb.
Qed.
End loop.

(** Write the three accumulators as [bucket]s. *)
Ltac as_buckets :=
  repeat match goal with
    | |- context [train_docs ?x] => rewrite <- (bucket_Train x)
    | |- context [dev_docs ?x] => rewrite <- (bucket_Dev x)
    | |- context [test_docs ?x] => rewrite <- (bucket_Test x)
    end.

(** ** The cell as a whole *)

Section partition.
Implicit Types (s : notebook) (c : label) (r : ref) (sp : Q * Q).

Lemma partition_with_frame sp s : 
  store (partition_with sp s) = store s
  ∧ docs (partition_with sp s) = docs s
  ∧ stdout (partition_with sp s) = stdout s.
Proof.
  unfold partition_with.
  match goal with |- context [for_loop ?l ?s0] =>
    destruct (for_loop_frame l s0) as (->&->&_&_&_&->) end.
  done.
Qed.

Lemma elem_of_bucket_partition c sp s r :
  r ∈ bucket c (partition_with sp s) ↔
  ∃ i, sorted_docs s !! i = Some r ∧ branch sp (length (docs s)) i = c.
Proof.
  unfold partition_with, enumerate. rewrite elem_of_bucket_for_loop. simpl.
  change (sort_by_key _) with (sort_by_key (pairs s)).
  unfold sorted_docs. split.
  - intros [Hin|(i&nm&Hi&Hb)]; [by destruct c|].
    exists i. by rewrite list_lookup_fmap, Hi.
  - intros (i&Hi&Hb). right. rewrite list_lookup_fmap in Hi.
    destruct (sort_by_key (pairs s) !! i) as [[nm r']|] eqn:E; [|done].
    injection Hi as ->. by exists i, nm.
Qed.

End partition.

(** ** The order the cell walks *)

Section arrangement.
Context {F : Type}.
Implicit Types (s : notebook_of F) (r : ref).

Lemma pairs_snd s : (pairs s).*2 = docs s.
Proof.
  unfold pairs. rewrite <- list_fmap_compose.
  rewrite <- (list_fmap_id (docs s)) at 2. by apply list_fmap_ext.
Qed.

Lemma pairs_fst s : (pairs s).*1 = name_of s <$> docs s.
Proof. unfold pairs. by rewrite <- list_fmap_compose. Qed.

Lemma sorted_docs_perm s : sorted_docs s ≡ₚ docs s.
Proof. unfold sorted_docs. by rewrite sort_by_key_perm, pairs_snd. Qed.

Lemma sorted_docs_length s : length (sorted_docs s) = length (docs s).
Proof. by rewrite sorted_docs_perm. Qed.

Lemma sorted_snd s (l : list (string * ref)) :
  Forall (λ x, x.1 = name_of s x.2) l →
  StronglySorted key_lt l → StronglySorted (name_lt s) l.*2.
Proof.
  intros Hwf. induction 1 as [|x l Hs IH Hall]; csimpl; [constructor|].
  apply Forall_cons in Hwf as [Hx Hwf]. constructor; [by apply IH|].
  rewrite Forall_fmap. apply Forall_forall. intros y Hy.
  unfold name_lt. simpl. rewrite <- Hx.
  rewrite <- (proj1 (Forall_forall _ _) Hwf y Hy).
  by apply (proj1 (Forall_forall _ _) Hall).
Qed.

Lemma sorted_docs_sorted s :
  unique_names s → StronglySorted (name_lt s) (sorted_docs s).
Proof.
  intros Hnd. apply sorted_snd.
  - rewrite sort_by_key_perm. unfold pairs. rewrite Forall_fmap.
    by apply Forall_forall.
  - apply sort_by_key_strict. by rewrite pairs_fst.
Qed.

Lemma name_sorted_NoDup s (l : list ref) :
  StronglySorted (name_lt s) l → NoDup (name_of s <$> l).
Proof.
  induction 1 as [|r l Hs IH Hall]; csimpl; constructor; [|done].
  intros (r'&Heq&Hin)%list_elem_of_fmap.
  apply (proj1 (Forall_forall _ _) Hall) in Hin.
  apply ltb_true_iff in Hin as [_ Hne]. done.
Qed.

(** The name-sorted arrangement of [docs] is the one the cell walks. *)
Lemma sorted_docs_unique s (srt : list ref) :
  srt ≡ₚ docs s → StronglySorted (name_lt s) srt → srt = sorted_docs s.
Proof.
  intros Hp Hs. apply (StronglySorted_unique (name_lt s)); [done| |].
  - apply sorted_docs_sorted. unfold unique_names. rewrite <- Hp.
    by apply name_sorted_NoDup.
  - by rewrite sorted_docs_perm.
Qed.

Lemma unique_names_NoDup s : unique_names s → NoDup (docs s).
Proof. apply NoDup_fmap_1. Qed.
End arrangement.

(** ** Arithmetic of the comparison *)

Section below.
Implicit Types (f : Q) (N i : nat).

Lemma of_int_nonneg N : (0 <= of_int N)%Q.
Proof. unfold of_int. rewrite <- (Zle_Qle 0). lia. Qed.

Lemma of_int_lt i N : (i < N)%nat → (of_int i < of_int N)%Q.
Proof. intros Hi. unfold of_int. rewrite <- Zlt_Qlt. lia. Qed.

Lemma below_proper f g N i : (f == g)%Q → below f N i ↔ below g N i.
Proof. intros Hfg. unfold below. by rewrite Hfg. Qed.

Lemma below_mono f g N i : (f <= g)%Q → below f N i → below g N i.
Proof.
  unfold below. intros Hfg Hi. eapply Qlt_le_trans; [exact Hi|].
  apply Qmult_le_compat_r; [done|apply of_int_nonneg].
Qed.

Lemma below_0 N i : ¬ below 0 N i.
Proof.
  unfold below. rewrite Qmult_0_l. apply Qle_not_lt, of_int_nonneg.
Qed.

Lemma below_1 N i : (i < N)%nat → below 1 N i.
Proof. unfold below. rewrite Qmult_1_l. apply of_int_lt. Qed.

Lemma not_below f N i : ¬ below f N i ↔ (f * of_int N <= of_int i)%Q.
Proof.
  unfold below. split; [apply Qnot_lt_le|apply Qle_not_lt].
Qed.
End below.

(** On the constants of the source the rational comparison is the one
    binary64 computes; checked by evaluation for every list of up to 256
    documents. *)
Lemma binary64_branch_checked :
  forallb (λ n, forallb (λ j,
    bool_decide (binary64.branch n j = branch (1 # 2, 3 # 4)%Q n j))
    (seq 0 n)) (seq 0 257) = true.
Proof. vm_compute. reflexivity. Qed.

Lemma binary64_branch N i :
  N ≤ 256 → i < N → binary64.branch N i = branch (1 # 2, 3 # 4)%Q N i.
Proof.
  intros HN Hi. pose proof binary64_branch_checked as Hall.
  apply (proj1 (forallb_forall _ _)) with (x := N) in Hall;
    [|apply in_seq; lia].
  apply (proj1 (forallb_forall _ _)) with (x := i) in Hall;
    [|apply in_seq; lia].
  by apply bool_decide_eq_true_1 in Hall.
Qed.

(** ** Ranks *)

Section rank.
Implicit Types (s : notebook) (c : label) (r : ref) (sp : Q * Q).

(** Where every document object occurs once in [docs], the label of a
    document is the branch taken at its rank. *)
Lemma bucket_at_rank c sp s i r :
  NoDup (docs s) → sorted_docs s !! i = Some r →
  r ∈ bucket c (partition_with sp s) ↔ branch sp (length (docs s)) i = c.
Proof.
  intros Hnd Hi. rewrite elem_of_bucket_partition. split.
  - intros (j&Hj&Hb). rewrite <- (sorted_docs_perm s) in Hnd.
    by rewrite (NoDup_lookup _ _ _ _ Hnd Hi Hj).
  - intros Hb. by exists i.
Qed.

Lemma bucket_subseteq c sp s r :
  r ∈ bucket c (partition_with sp s) → r ∈ docs s.
Proof.
  intros (i&Hi&_)%elem_of_bucket_partition.
  rewrite <- (sorted_docs_perm s). by eapply list_elem_of_lookup_2.
Qed.

Lemma bucket_cover sp s r :
  r ∈ docs s → ∃ c, r ∈ bucket c (partition_with sp s).
Proof.
  rewrite <- (sorted_docs_perm s). intros [i Hi]%list_elem_of_lookup_1.
  exists (branch sp (length (docs s)) i).
  apply elem_of_bucket_partition. by exists i.
Qed.

Lemma bucket_functional c1 c2 sp s r :
  NoDup (docs s) →
  r ∈ bucket c1 (partition_with sp s) →
  r ∈ bucket c2 (partition_with sp s) → c1 = c2.
Proof.
  intros Hnd H1 H2. pose proof (bucket_subseteq _ _ _ _ H1) as Hin.
  rewrite <- (sorted_docs_perm s) in Hin.
  apply list_elem_of_lookup_1 in Hin as [i Hi].
  apply (bucket_at_rank _ sp _ _ _ Hnd Hi) in H1, H2. congruence.
Qed.

Lemma buckets_union sp s :
  let s' := partition_with sp s in
  train_docs s' ∪ dev_docs s' ∪ test_docs s' = list_to_set (docs s).
Proof.
  intros s'. subst s'. as_buckets. apply set_eq. intros r.
  rewrite !elem_of_union, elem_of_list_to_set. split.
  - intros [[H|H]|H].
    + by apply (bucket_subseteq Train sp).
    + by apply (bucket_subseteq Dev sp).
    + by apply (bucket_subseteq Test sp).
  - intros [[] H]%(bucket_cover sp); auto.
Qed.

Lemma buckets_disjoint c1 c2 sp s :
  NoDup (docs s) → c1 ≠ c2 →
  bucket c1 (partition_with sp s) ## bucket c2 (partition_with sp s).
Proof.
  intros Hnd Hne. apply elem_of_disjoint. intros r H1 H2.
  by apply Hne, (bucket_functional c1 c2 sp s r).
Qed.

Lemma exactly_one sp s r :
  NoDup (docs s) → r ∈ docs s →
  ∃ c, r ∈ bucket c (partition_with sp s)
       ∧ ∀ c', r ∈ bucket c' (partition_with sp s) → c' = c.
Proof.
  intros Hnd [c Hc]%(bucket_cover sp). exists c. split; [done|].
  intros c' Hc'. by apply (bucket_functional c' c sp s r).
Qed.

(** The result depends on the sorted arrangement and its length only. *)
Lemma bucket_ext c sp s1 s2 :
  sorted_docs s1 = sorted_docs s2 →
  bucket c (partition_with sp s1) = bucket c (partition_with sp s2).
Proof.
  intros Heq. apply set_eq. intros r. rewrite !elem_of_bucket_partition.
  by rewrite <- !sorted_docs_length, Heq.
Qed.
End rank.

(** ** Degenerate split points *)

Section edges.
Implicit Types (s : notebook) (sp : Q * Q).

Lemma dev_empty sp s :
  (sp.1 == sp.2)%Q → dev_docs (partition_with sp s) = ∅.
Proof.
  intros Heq. as_buckets. apply set_eq. intros r.
  split; [|by intros ?%not_elem_of_empty].
  intros (i&_&[Hn Hb]%branch_Dev)%(elem_of_bucket_partition Dev).
  destruct Hn. by apply (below_proper _ _ _ _ Heq).
Qed.

Lemma train_empty sp s :
  (sp.1 == 0)%Q → train_docs (partition_with sp s) = ∅.
Proof.
  intros Heq. as_buckets. apply set_eq. intros r.
  split; [|by intros ?%not_elem_of_empty].
  intros (i&_&Hb%branch_Train)%(elem_of_bucket_partition Train).
  apply (below_proper _ _ _ _ Heq) in Hb. by apply below_0 in Hb.
Qed.

Lemma test_empty sp s :
  (sp.2 == 1)%Q → test_docs (partition_with sp s) = ∅.
Proof.
  intros Heq. as_buckets. apply set_eq. intros r.
  split; [|by intros ?%not_elem_of_empty].
  intros (i&Hi&[_ Hn]%branch_Test)%(elem_of_bucket_partition Test).
  destruct Hn. apply (below_proper _ _ _ _ Heq), below_1.
  rewrite <- sorted_docs_length. by eapply lookup_lt_Some.
Qed.

Lemma bucket_nil c sp s :
  docs s = [] → bucket c (partition_with sp s) = ∅.
Proof.
  intros Hnil. apply set_eq. intros r.
  split; [|by intros ?%not_elem_of_empty].
  intros (i&Hi%lookup_lt_Some&_)%elem_of_bucket_partition.
  rewrite sorted_docs_length, Hnil in Hi. simpl in Hi. lia.
Qed.
End edges.

(** ** The partitioner's contract

    C2 and C10 say where the cuts fall for arbitrary split points; they
    are proved over the binary64 loop, at the end. *)

(** C1. For uniquely named documents and valid split points, the three
    subsets the cell builds are pairwise disjoint, their union is the set
    of input documents, and so every input document is in exactly one of
    them. *)
Theorem partition_strict sp s :
  valid sp → unique_names s →
  let s' := partition_with sp s in
  train_docs s' ## dev_docs s'
  ∧ train_docs s' ## test_docs s'
  ∧ dev_docs s' ## test_docs s'
  ∧ train_docs s' ∪ dev_docs s' ∪ test_docs s' = list_to_set (docs s)
  ∧ ∀ r, r ∈ docs s →
      ∃ c, r ∈ bucket c s' ∧ ∀ c', r ∈ bucket c' s' → c' = c.
Proof.
  intros _ Hnd%unique_names_NoDup s'. subst s'. as_buckets.
  split; [|split; [|split; [|split]]].
  - by apply (buckets_disjoint Train Dev).
  - by apply (buckets_disjoint Train Test).
  - by apply (buckets_disjoint Dev Test).
  - apply buckets_union.
  - intros r Hr. by apply exactly_one.
Qed.

Lemma partition_strict_witness :
  valid (1 # 2, 3 # 4)%Q ∧ unique_names abcd_nb ∧
  let s' := partition_with (1 # 2, 3 # 4)%Q abcd_nb in
  train_docs s' ## dev_docs s'
  ∧ train_docs s' ## test_docs s'
  ∧ dev_docs s' ## test_docs s'
  ∧ train_docs s' ∪ dev_docs s' ∪ test_docs s' = list_to_set (docs abcd_nb)
  ∧ ∀ r, r ∈ docs abcd_nb →
      ∃ c, r ∈ bucket c s' ∧ ∀ c', r ∈ bucket c' s' → c' = c.
Proof.
  assert (Hv : valid (1 # 2, 3 # 4)%Q).
  { unfold valid, Qle; simpl. lia. }
  assert (Hu : unique_names abcd_nb).
  { unfold unique_names. refine (bool_decide_unpack _ _). vm_compute. exact I. }
  split; [exact Hv|]. split; [exact Hu|].
  exact (partition_strict (1 # 2, 3 # 4)%Q abcd_nb Hv Hu).
Defined.

(** C3, as the specification has it, fails on the cell: split points with
    [f1 > f2] raise nothing, and documents are assigned. *)
Lemma invalid_splits_do_not_raise :
  let sp := (4 # 5, 1 # 5)%Q in
  ¬ valid sp
  ∧ run_partition sp abcd_nb ≠ Raised InvalidArgument
  ∧ train_docs (partition_with sp abcd_nb) = {[0; 1; 2; 3]}.
Proof.
  split; [|split].
  - unfold valid, Qle; simpl. lia.
  - discriminate.
  - vm_compute. reflexivity.
Qed.

(** C3, amended. The cell validates nothing and never raises: whatever
    the split points, a run completes and every document of the input is
    assigned. *)
Theorem never_raises sp s :
  ∃ s', run_partition sp s = Completed s'
        ∧ train_docs s' ∪ dev_docs s' ∪ test_docs s' = list_to_set (docs s).
Proof.
  exists (partition_with sp s). split; [done|]. apply buckets_union.
Qed.

(** C4. Two runs on the same documents with the same split points give the
    same three subsets, whatever else the notebook held before each run. *)
Theorem partition_deterministic sp s1 s2 :
  docs s1 = docs s2 →
  (∀ r, r ∈ docs s1 → name_of s1 r = name_of s2 r) →
  train_docs (partition_with sp s1) = train_docs (partition_with sp s2)
  ∧ dev_docs (partition_with sp s1) = dev_docs (partition_with sp s2)
  ∧ test_docs (partition_with sp s1) = test_docs (partition_with sp s2).
Proof.
  intros Hd Hn.
  assert (Hs : sorted_docs s1 = sorted_docs s2).
  { unfold sorted_docs, pairs. rewrite <- Hd. do 2 f_equal.
    apply list_fmap_ext. intros i r Hi. f_equal.
    by eapply Hn, list_elem_of_lookup_2. }
  as_buckets. split; [|split].
  - by apply (bucket_ext Train).
  - by apply (bucket_ext Dev).
  - by apply (bucket_ext Test).
Qed.

Lemma partition_deterministic_witness :
  let s1 := abcd_nb in
  let s2 := partition abcd_nb in
  docs s1 = docs s2
  ∧ (∀ r, r ∈ docs s1 → name_of s1 r = name_of s2 r)
  ∧ train_docs (partition s1) = train_docs (partition s2)
  ∧ dev_docs (partition s1) = dev_docs (partition s2)
  ∧ test_docs (partition s1) = test_docs (partition s2).
Proof.
  intros s1 s2.
  assert (Hd : docs s1 = docs s2) by (vm_compute; reflexivity).
  assert (Hn : ∀ r, r ∈ docs s1 → name_of s1 r = name_of s2 r).
  { intros r _. reflexivity. }
  split; [exact Hd|]. split; [exact Hn|].
  exact (partition_deterministic (1 # 2, 3 # 4)%Q s1 s2 Hd Hn).
Defined.

(** C5. Four documents named a, b, c, d with the split points 0.5 and
    0.75: train holds a and b, dev holds c, test holds d. *)
Theorem scenario_abcd s (ra rb rc rd : ref) :
  docs s ≡ₚ [ra; rb; rc; rd] →
  name_of s ra = "a" → name_of s rb = "b" →
  name_of s rc = "c" → name_of s rd = "d" →
  train_docs (partition s) = {[ra; rb]}
  ∧ dev_docs (partition s) = {[rc]}
  ∧ test_docs (partition s) = {[rd]}.
Proof.
  intros Hp Ha Hb Hc Hd.
  assert (Hs : StronglySorted (name_lt s) [ra; rb; rc; rd]).
  { repeat constructor; unfold name_lt; rewrite ?Ha, ?Hb, ?Hc, ?Hd; done. }
  symmetry in Hp.
  pose proof (sorted_docs_unique s _ Hp Hs) as Hsrt.
  assert (Hlen : length (docs s) = 4) by by rewrite <- Hp.
  assert (Hin : ∀ c r, r ∈ bucket c (partition s) ↔
            ∃ i, [ra; rb; rc; rd] !! i = Some r
                 ∧ branch (1 # 2, 3 # 4)%Q 4 i = c).
  { intros c r. unfold partition.
    by rewrite elem_of_bucket_partition, Hlen, <- Hsrt. }
  as_buckets. split; [|split]; apply set_eq; intros r.
  - rewrite (Hin Train). rewrite !elem_of_union, !elem_of_singleton. split.
    + intros ([|[|[|[|i]]]]&Hi&Hb'); simplify_eq/=; auto.
    + intros [->| ->]; [by exists 0|by exists 1].
  - rewrite (Hin Dev). rewrite elem_of_singleton. split.
    + intros ([|[|[|[|i]]]]&Hi&Hb'); simplify_eq/=; auto.
    + intros ->. by exists 2.
  - rewrite (Hin Test). rewrite elem_of_singleton. split.
    + intros ([|[|[|[|i]]]]&Hi&Hb'); simplify_eq/=; auto.
    + intros ->. by exists 3.
Qed.

Lemma scenario_abcd_witness :
  docs abcd_nb ≡ₚ [2; 1; 3; 0]
  ∧ name_of abcd_nb 2 = "a" ∧ name_of abcd_nb 1 = "b"
  ∧ name_of abcd_nb 3 = "c" ∧ name_of abcd_nb 0 = "d"
  ∧ train_docs (partition abcd_nb) = {[2; 1]}
  ∧ dev_docs (partition abcd_nb) = {[3]}
  ∧ test_docs (partition abcd_nb) = {[0]}.
Proof.
  assert (Hp : docs abcd_nb ≡ₚ [2; 1; 3; 0]).
  { refine (bool_decide_unpack _ _). vm_compute. exact I. }
  split; [exact Hp|]. do 4 (split; [reflexivity|]).
  exact (scenario_abcd abcd_nb 2 1 3 0 Hp eq_refl eq_refl eq_refl eq_refl).
Defined.

(** C6. Equal split points leave dev empty; a first split point of 0
    leaves train empty; a second split point of 1 leaves test empty; no
    documents give three empty subsets, and the run completes. *)
Theorem edge_cases s :
  (∀ sp, (sp.1 == sp.2)%Q → dev_docs (partition_with sp s) = ∅)
  ∧ (∀ sp, (sp.1 == 0)%Q → train_docs (partition_with sp s) = ∅)
  ∧ (∀ sp, (sp.2 == 1)%Q → test_docs (partition_with sp s) = ∅)
  ∧ (docs s = [] →
     ∀ sp, ∃ s', run_partition sp s = Completed s'
                 ∧ train_docs s' = ∅ ∧ dev_docs s' = ∅ ∧ test_docs s' = ∅).
Proof.
  split; [|split; [|split]].
  - intros sp. apply dev_empty.
  - intros sp. apply train_empty.
  - intros sp. apply test_empty.
  - intros Hnil sp. exists (partition_with sp s). split; [done|].
    as_buckets. split; [|split].
    + by apply (bucket_nil Train).
    + by apply (bucket_nil Dev).
    + by apply (bucket_nil Test).
Qed.

Lemma edge_cases_witness :
  ((1 # 2, 1 # 2).1 == (1 # 2, 1 # 2).2)%Q
  ∧ ((0, 3 # 4).1 == 0)%Q
  ∧ ((1 # 2, 1).2 == 1)%Q
  ∧ docs (fresh abcd []) = []
  ∧ dev_docs (partition_with (1 # 2, 1 # 2)%Q abcd_nb) = ∅
  ∧ train_docs (partition_with (0, 3 # 4)%Q abcd_nb) = ∅
  ∧ test_docs (partition_with (1 # 2, 1)%Q abcd_nb) = ∅
  ∧ ∃ s', run_partition (1 # 2, 3 # 4)%Q (fresh abcd []) = Completed s'
          ∧ train_docs s' = ∅ ∧ dev_docs s' = ∅ ∧ test_docs s' = ∅.
Proof.
  do 4 (split; [reflexivity|]).
  split; [|split; [|split]].
  - exact (proj1 (edge_cases abcd_nb) (1 # 2, 1 # 2)%Q (reflexivity _)).
  - exact (proj1 (proj2 (edge_cases abcd_nb)) (0, 3 # 4)%Q (reflexivity _)).
  - exact (proj1 (proj2 (proj2 (edge_cases abcd_nb))) (1 # 2, 1)%Q
             (reflexivity _)).
  - exact (proj2 (proj2 (proj2 (edge_cases (fresh abcd [])))) eq_refl
             (1 # 2, 3 # 4)%Q).
Defined.

(** C7, as the specification has it, fails on the cell: with the split
    points 0 and 1 every document goes to dev, none to test. *)
Lemma zero_one_fills_dev :
  let s' := partition_with (0, 1)%Q abcd_nb in
  ¬ (dev_docs s' = ∅ ∧ size (train_docs s') = 0
     ∧ size (test_docs s') = length (docs abcd_nb))
  ∧ dev_docs s' = {[0; 1; 2; 3]} ∧ test_docs s' = ∅.
Proof.
  split; [|split; vm_compute; reflexivity].
  intros (Hdev&_). vm_compute in Hdev. discriminate.
Qed.

(** C7, amended. With the split points 0 and 1, train and test are empty
    and dev holds every document: a document set of size [N] gives a dev
    set of size [N]. *)
Theorem zero_one_all_dev s :
  NoDup (docs s) →
  let s' := partition_with (0, 1)%Q s in
  train_docs s' = ∅ ∧ test_docs s' = ∅
  ∧ dev_docs s' = list_to_set (docs s)
  ∧ size (train_docs s') = 0 ∧ size (test_docs s') = 0
  ∧ size (dev_docs s') = length (docs s).
Proof.
  intros Hnd s'.
  pose proof (train_empty (0, 1)%Q s (reflexivity _)) as HT.
  pose proof (test_empty (0, 1)%Q s (reflexivity _)) as HE.
  fold s' in HT, HE.
  assert (HD : dev_docs s' = list_to_set (docs s)).
  { rewrite <- (buckets_union (0, 1)%Q s). fold s'. rewrite HT, HE.
    by rewrite (left_id_L ∅ (∪)), (right_id_L ∅ (∪)). }
  rewrite HT, HE, HD, size_empty. repeat split.
  by apply size_list_to_set.
Qed.

Lemma zero_one_all_dev_witness :
  NoDup (docs abcd_nb)
  ∧ dev_docs (partition_with (0, 1)%Q abcd_nb) = list_to_set (docs abcd_nb)
  ∧ size (dev_docs (partition_with (0, 1)%Q abcd_nb)) = 4.
Proof.
  assert (Hnd : NoDup (docs abcd_nb)).
  { refine (bool_decide_unpack _ _). vm_compute. exact I. }
  split; [exact Hnd|].
  pose proof (zero_one_all_dev abcd_nb Hnd) as (_&_&HD&_&_&Hsz).
  split; [exact HD|exact Hsz].
Defined.

(** C8. A run leaves the document store, every document record and its
    name, the input list and the output stream as they were: it only
    writes the cell's own variables. *)
Theorem partition_frame sp s :
  let s' := partition_with sp s in
  store s' = store s
  ∧ (∀ r, name_of s' r = name_of s r)
  ∧ docs s' = docs s
  ∧ stdout s' = stdout s.
Proof.
  intros s'. subst s'. destruct (partition_with_frame sp s) as (Hst&Hd&Ho).
  repeat split; try done. intros r. unfold name_of. by rewrite Hst.
Qed.


(** C9. Two notebooks over the same store whose [docs] are permutations
    of each other, with unique names, get the same three subsets. *)
Theorem order_insensitive sp s1 s2 :
  store s1 = store s2 → docs s1 ≡ₚ docs s2 → unique_names s1 →
  train_docs (partition_with sp s1) = train_docs (partition_with sp s2)
  ∧ dev_docs (partition_with sp s1) = dev_docs (partition_with sp s2)
  ∧ test_docs (partition_with sp s1) = test_docs (partition_with sp s2).
Proof.
  intros Hst Hp Hu.
  assert (Hs : sorted_docs s1 = sorted_docs s2).
  { apply sorted_docs_unique.
    - by rewrite sorted_docs_perm.
    - pose proof (sorted_docs_sorted s1 Hu) as Hs.
      unfold name_lt, name_of in *. by rewrite <- Hst. }
  as_buckets. split; [|split].
  - by apply (bucket_ext Train).
  - by apply (bucket_ext Dev).
  - by apply (bucket_ext Test).
Qed.

Lemma order_insensitive_witness :
  let s1 := abcd_nb in
  let s2 := fresh abcd [3; 1; 0; 2] in
  store s1 = store s2 ∧ docs s1 ≡ₚ docs s2 ∧ unique_names s1
  ∧ train_docs (partition s1) = train_docs (partition s2)
  ∧ dev_docs (partition s1) = dev_docs (partition s2)
  ∧ test_docs (partition s1) = test_docs (partition s2).
Proof.
  intros s1 s2.
  assert (Hp : docs s1 ≡ₚ docs s2).
  { refine (bool_decide_unpack _ _). vm_compute. exact I. }
  assert (Hu : unique_names s1).
  { unfold unique_names. refine (bool_decide_unpack _ _). vm_compute. exact I. }
  split; [reflexivity|]. split; [exact Hp|]. split; [exact Hu|].
  exact (order_insensitive (1 # 2, 3 # 4)%Q s1 s2 eq_refl Hp Hu).
Defined.

(** * Further properties of the cell *)

(** ** Cuts: the subsets as segments of the sorted list *)

Section cuts.
Implicit Types (s : notebook) (sp : Q * Q) (f : Q) (N i k : nat).

Lemma below_half N i : below (1 # 2) N i ↔ i < (N + 1) / 2.
Proof.
  pose proof (Nat.div_mod_eq (N + 1) 2) as Hd.
  pose proof (Nat.mod_upper_bound (N + 1) 2) as Hm.
  set (k := (N + 1) / 2) in *. set (m := (N + 1) mod 2) in *.
  unfold below, of_int, Qlt; simpl. lia.
Qed.

Lemma below_three_quarters N i : below (3 # 4) N i ↔ i < (3 * N + 3) / 4.
Proof.
  pose proof (Nat.div_mod_eq (3 * N + 3) 4) as Hd.
  pose proof (Nat.mod_upper_bound (3 * N + 3) 4) as Hm.
  set (k := (3 * N + 3) / 4) in *. set (m := (3 * N + 3) mod 4) in *.
  unfold below, of_int, Qlt; simpl. lia.
Qed.

(** With [k1] and [k2] the numbers of ranks below the two split points,
    the subsets are segments of the sorted list. *)
Lemma buckets_by_cuts sp s k1 k2 :
  (∀ i, below sp.1 (length (docs s)) i ↔ i < k1) →
  (∀ i, below sp.2 (length (docs s)) i ↔ i < k2) →
  let s' := partition_with sp s in
  train_docs s' = list_to_set (take k1 (sorted_docs s))
  ∧ dev_docs s' = list_to_set (drop k1 (take k2 (sorted_docs s)))
  ∧ test_docs s' = list_to_set (drop (k1 `max` k2) (sorted_docs s)).
Proof.
  intros H1 H2 s'. subst s'. as_buckets.
  split; [|split]; apply set_eq; intros r;
    rewrite elem_of_bucket_partition, elem_of_list_to_set.
  - rewrite elem_of_take. setoid_rewrite branch_Train.
    by setoid_rewrite H1.
  - rewrite list_elem_of_lookup. setoid_rewrite branch_Dev.
    setoid_rewrite H1. setoid_rewrite H2. setoid_rewrite lookup_drop.
    split.
    + intros (i&Hi&Hn&Hlt). exists (i - k1).
      replace (k1 + (i - k1)) with i by lia. by rewrite lookup_take_lt.
    + intros (j&Hj). exists (k1 + j).
      apply lookup_take_Some in Hj as [Hj Hlt]. split; [done|lia].
  - rewrite list_elem_of_lookup. setoid_rewrite branch_Test.
    setoid_rewrite H1. setoid_rewrite H2. setoid_rewrite lookup_drop.
    split.
    + intros (i&Hi&Hn1&Hn2). exists (i - k1 `max` k2).
      by replace (k1 `max` k2 + (i - k1 `max` k2)) with i by lia.
    + intros (j&Hj). exists (k1 `max` k2 + j). split; [done|lia].
Qed.
End cuts.

Section sizes.
Implicit Types (s : notebook) (l : list ref).

Lemma list_to_set_empty_length l :
  list_to_set l =@{gset ref} ∅ ↔ length l = 0.
Proof.
  destruct l as [|r l]; simpl; [done|]. split; [|done].
  intros Hl. assert (Hr : r ∈ (∅ : gset ref)); [|by apply not_elem_of_empty in Hr].
  rewrite <- Hl. apply elem_of_union. left. by apply elem_of_singleton.
Qed.

Lemma sorted_docs_NoDup {F} (s : notebook_of F) :
  NoDup (docs s) → NoDup (sorted_docs s).
Proof. intros Hnd. by rewrite sorted_docs_perm. Qed.

Lemma size_segment l k1 k2 :
  NoDup l → size (list_to_set (C:=gset ref) (drop k1 (take k2 l)))
            = k2 `min` length l - k1.
Proof.
  intros Hnd. rewrite size_list_to_set.
  - by rewrite length_drop, length_take.
  - eapply sublist_NoDup; [|apply sublist_drop].
    eapply sublist_NoDup; [done|apply sublist_take].
Qed.

Lemma size_tail l k :
  NoDup l → size (list_to_set (C:=gset ref) (drop k l)) = length l - k.
Proof.
  intros Hnd. rewrite size_list_to_set; [by rewrite length_drop|].
  eapply sublist_NoDup; [done|apply sublist_drop].
Qed.

(** The cell with its own constants, as segments. *)
Lemma partition_segments s :
  let N := length (docs s) in
  train_docs (partition s) = list_to_set (take ((N + 1) / 2) (sorted_docs s))
  ∧ dev_docs (partition s) =
      list_to_set (drop ((N + 1) / 2) (take ((3 * N + 3) / 4) (sorted_docs s)))
  ∧ test_docs (partition s) =
      list_to_set (drop ((3 * N + 3) / 4) (sorted_docs s)).
Proof.
  intros N.
  assert (Hmax : ((N + 1) / 2) `max` ((3 * N + 3) / 4) = (3 * N + 3) / 4).
  { pose proof (Nat.div_mod_eq (N + 1) 2).
    pose proof (Nat.mod_upper_bound (N + 1) 2).
    pose proof (Nat.div_mod_eq (3 * N + 3) 4).
    pose proof (Nat.mod_upper_bound (3 * N + 3) 4). lia. }
  rewrite <- Hmax at 2.
  apply (buckets_by_cuts (1 # 2, 3 # 4)%Q s).
  - intros i. apply below_half.
  - intros i. apply below_three_quarters.
Qed.
End sizes.


(** X2. With the constants of the cell and [N] distinct documents, train
    has [ceil(N/2)] of them, train and dev together [ceil(3N/4)], test
    the rest; when [N] is a multiple of four this is the 2/1/1 split the
    notebook announces. *)
Theorem split_sizes s :
  NoDup (docs s) →
  let N := length (docs s) in
  (size (train_docs (partition s)) = (N + 1) / 2
   ∧ size (dev_docs (partition s)) = (3 * N + 3) / 4 - (N + 1) / 2
   ∧ size (test_docs (partition s)) = N - (3 * N + 3) / 4)
  ∧ ∀ k, N = 4 * k →
      size (train_docs (partition s)) = 2 * k
      ∧ size (dev_docs (partition s)) = k
      ∧ size (test_docs (partition s)) = k.
Proof.
  intros Hnd%sorted_docs_NoDup N.
  destruct (partition_segments s) as (HT&HD&HE). fold N in HT, HD, HE.
  rewrite HT, HD, HE. rewrite <- (drop_0 (take ((N + 1) / 2) _)).
  rewrite !size_segment, !size_tail by done.
  rewrite sorted_docs_length. fold N.
  pose proof (Nat.div_mod_eq (N + 1) 2).
  pose proof (Nat.mod_upper_bound (N + 1) 2).
  pose proof (Nat.div_mod_eq (3 * N + 3) 4).
  pose proof (Nat.mod_upper_bound (3 * N + 3) 4).
  split; [lia|]. intros k Hk. lia.
Qed.

Lemma split_sizes_witness :
  NoDup (docs abcd_nb)
  ∧ size (train_docs (partition abcd_nb)) = 2
  ∧ size (dev_docs (partition abcd_nb)) = 1
  ∧ size (test_docs (partition abcd_nb)) = 1.
Proof.
  assert (Hnd : NoDup (docs abcd_nb)).
  { refine (bool_decide_unpack _ _). vm_compute. exact I. }
  split; [exact Hnd|]. exact (proj2 (split_sizes abcd_nb Hnd) 1 eq_refl).
Defined.

(** X3. With the constants of the cell, train is empty only for an empty
    corpus, dev is empty exactly when there is at most one document, and
    test exactly when there are at most three. *)
Theorem small_corpora s :
  let N := length (docs s) in
  (train_docs (partition s) = ∅ ↔ N = 0)
  ∧ (dev_docs (partition s) = ∅ ↔ N ≤ 1)
  ∧ (test_docs (partition s) = ∅ ↔ N ≤ 3).
Proof.
  intros N. destruct (partition_segments s) as (HT&HD&HE).
  fold N in HT, HD, HE. rewrite HT, HD, HE.
  rewrite !list_to_set_empty_length, !length_drop, !length_take.
  rewrite sorted_docs_length. fold N.
  pose proof (Nat.div_mod_eq (N + 1) 2).
  pose proof (Nat.mod_upper_bound (N + 1) 2).
  pose proof (Nat.div_mod_eq (3 * N + 3) 4).
  pose proof (Nat.mod_upper_bound (3 * N + 3) 4).
  lia.
Qed.

(** ** Name ranges *)

Section ranges.
Implicit Types (s : notebook) (sp : Q * Q) (c : label) (r : ref).

Lemma below_down f N i j : i ≤ j → below f N j → below f N i.
Proof.
  unfold below. intros Hij Hj. eapply Qle_lt_trans; [|exact Hj].
  unfold of_int. rewrite <- Zle_Qle. lia.
Qed.

(** A rank with a later label is a later rank. *)
Lemma branch_rank_lt sp N i j c1 c2 :
  branch sp N i = c1 → branch sp N j = c2 →
  split_of c1 < split_of c2 → i < j.
Proof.
  intros H1 H2 Hlt. destruct (decide (i < j)) as [|Hge]; [done|].
  assert (Hji : j ≤ i) by lia. exfalso.
  destruct c1, c2; simpl in Hlt; try lia.
  - apply branch_Train in H1. apply branch_Dev in H2 as [Hn _].
    by apply Hn, (below_down _ _ _ i).
  - apply branch_Train in H1. apply branch_Test in H2 as [Hn _].
    by apply Hn, (below_down _ _ _ i).
  - apply branch_Dev in H1 as [_ H1]. apply branch_Test in H2 as [_ Hn].
    by apply Hn, (below_down _ _ _ i).
Qed.

Lemma StronglySorted_lookup_lt {A} (R : relation A) (l : list A) i j x y :
  StronglySorted R l → l !! i = Some x → l !! j = Some y → i < j → R x y.
Proof.
  intros Hs. revert i j. induction Hs as [|z l Hs IH Hall]; intros i j.
  { by rewrite lookup_nil. }
  destruct i as [|i], j as [|j]; simpl; intros Hi Hj Hij; try lia.
  - injection Hi as ->. eapply Forall_forall in Hall; [done|].
    by eapply list_elem_of_lookup_2.
  - eapply IH; [done..|lia].
Qed.

Lemma sorted_snd_le {F} (s : notebook_of F) (l : list (string * ref)) :
  Forall (λ x, x.1 = name_of s x.2) l →
  StronglySorted key_le l → StronglySorted (name_le s) l.*2.
Proof.
  intros Hwf. induction 1 as [|x l Hs IH Hall]; csimpl; [constructor|].
  apply Forall_cons in Hwf as [Hx Hwf]. constructor; [by apply IH|].
  rewrite Forall_fmap. apply Forall_forall. intros y Hy.
  unfold name_le. simpl. rewrite <- Hx.
  rewrite <- (proj1 (Forall_forall _ _) Hwf y Hy).
  by apply (proj1 (Forall_forall _ _) Hall).
Qed.

Lemma pairs_wf {F} (s : notebook_of F) :
  Forall (λ x, x.1 = name_of s x.2) (sort_by_key (pairs s)).
Proof.
  rewrite sort_by_key_perm. unfold pairs. rewrite Forall_fmap.
  by apply Forall_forall.
Qed.

Lemma sorted_docs_ascending {F} (s : notebook_of F) :
  StronglySorted (name_le s) (sorted_docs s).
Proof. apply sorted_snd_le; [apply pairs_wf|apply sort_by_key_sorted]. Qed.
End ranges.

(** X4. The subsets are ranges of names: a document of train is named no
    later than any document of dev or test, and one of dev no later than
    any of test; with unique names, strictly earlier.  This holds for any
    split points. *)
Theorem name_ranges sp s c1 c2 r1 r2 :
  split_of c1 < split_of c2 →
  r1 ∈ bucket c1 (partition_with sp s) →
  r2 ∈ bucket c2 (partition_with sp s) →
  name_le s r1 r2 ∧ (unique_names s → name_lt s r1 r2).
Proof.
  intros Hlt (i&Hi&Hb1)%elem_of_bucket_partition
    (j&Hj&Hb2)%elem_of_bucket_partition.
  pose proof (branch_rank_lt _ _ _ _ _ _ Hb1 Hb2 Hlt) as Hij. split.
  - exact (StronglySorted_lookup_lt _ _ _ _ _ _
             (sorted_docs_ascending s) Hi Hj Hij).
  - intros Hu.
    exact (StronglySorted_lookup_lt _ _ _ _ _ _
             (sorted_docs_sorted s Hu) Hi Hj Hij).
Qed.

Lemma name_ranges_witness :
  split_of Train < split_of Test
  ∧ 1 ∈ bucket Train (partition_with (1 # 2, 3 # 4)%Q abcd_nb)
  ∧ 0 ∈ bucket Test (partition_with (1 # 2, 3 # 4)%Q abcd_nb)
  ∧ name_le abcd_nb 1 0.
Proof.
  assert (Hlt : split_of Train < split_of Test) by (simpl; lia).
  assert (H1 : 1 ∈ bucket Train (partition_with (1 # 2, 3 # 4)%Q abcd_nb)).
  { refine (bool_decide_unpack _ _). vm_compute. exact I. }
  assert (H0 : 0 ∈ bucket Test (partition_with (1 # 2, 3 # 4)%Q abcd_nb)).
  { refine (bool_decide_unpack _ _). vm_compute. exact I. }
  repeat (split; [assumption|]).
  exact (proj1 (name_ranges _ _ _ _ _ _ Hlt H1 H0)).
Defined.

(** ** Running the cell again *)

Section rerun.
Implicit Types (s : notebook) (sp : Q * Q).

Lemma partition_with_before sp s :
  partition_with sp s =
  for_loop (enumerate (data (before_loop sp s))) (before_loop sp s).
Proof. reflexivity. Qed.

Lemma before_loop_ext sp s1 s2 :
  store s1 = store s2 → docs s1 = docs s2 → stdout s1 = stdout s2 →
  before_loop sp s1 = before_loop sp s2.
Proof.
  intros Hst Hd Ho. unfold before_loop, pairs, name_of.
  by rewrite Hst, Hd, Ho.
Qed.
End rerun.

(** X5. The cell can be run again: a run in the state an earlier run left,
    with the same or other split points, gives the very state a first run
    gives; nothing of the earlier run (accumulators, [data], [ld]) leaks
    into the later one. *)
Theorem last_run_wins sp1 sp2 s :
  partition_with sp2 (partition_with sp1 s) = partition_with sp2 s.
Proof.
  destruct (partition_with_frame sp1 s) as (Hst&Hd&Ho).
  rewrite (partition_with_before sp2 (partition_with sp1 s)).
  rewrite (partition_with_before sp2 s).
  by rewrite (before_loop_ext sp2 _ s Hst Hd Ho).
Qed.

(** ** The sort, again *)

Section sort_more.
Implicit Types (x y : string * ref) (l : list (string * ref)).
Implicit Types (s : notebook) (nm : string).

Lemma le_not_ltb (a b : string) : String.le a b → String.ltb b a = false.
Proof.
  intros Hab. destruct (String.ltb b a) eqn:E; [|done].
  apply ltb_true_iff in E as [Hba Hne]. destruct Hne.
  by apply (anti_symm String.le).
Qed.

Lemma insert_by_key_first x l :
  Forall (key_le x) l → insert_by_key x l = x :: l.
Proof.
  destruct 1 as [|y l Hxy _]; simpl; [done|].
  by rewrite (le_not_ltb _ _ Hxy).
Qed.

Lemma sort_by_key_sorted_id l : StronglySorted key_le l → sort_by_key l = l.
Proof.
  induction 1 as [|x l Hs IH Hall]; simpl; [done|].
  rewrite IH. by apply insert_by_key_first.
Qed.

Lemma filter_insert_by_key nm x l :
  filter (λ z, z.1 = nm) (insert_by_key x l) = filter (λ z, z.1 = nm) (x :: l).
Proof.
  induction l as [|y l IH]; simpl; [done|].
  destruct (String.ltb y.1 x.1) eqn:E; [|done].
  apply ltb_true_iff in E as [_ Hne].
  rewrite (filter_cons _ y), IH, !(filter_cons _ x), (filter_cons _ y).
  repeat case_decide; congruence.
Qed.

Lemma filter_sort_by_key nm l :
  filter (λ z, z.1 = nm) (sort_by_key l) = filter (λ z, z.1 = nm) l.
Proof.
  induction l as [|x l IH]; simpl; [done|].
  by rewrite filter_insert_by_key, !(filter_cons _ x), IH.
Qed.

Lemma filter_snd {F} (s : notebook_of F) nm l :
  Forall (λ x, x.1 = name_of s x.2) l →
  filter (λ r, name_of s r = nm) l.*2 = (filter (λ z, z.1 = nm) l).*2.
Proof.
  induction 1 as [|x l Hx _ IH]; csimpl; [done|].
  rewrite (filter_cons _ x.2), (filter_cons _ x), IH.
  repeat case_decide; try done; congruence.
Qed.

Lemma pairs_wf_unsorted {F} (s : notebook_of F) :
  Forall (λ x, x.1 = name_of s x.2) (pairs s).
Proof. unfold pairs. rewrite Forall_fmap. by apply Forall_forall. Qed.

Lemma data_partition_with sp s :
  data (partition_with sp s) = sort_by_key (pairs s).
Proof.
  rewrite partition_with_before.
  by destruct (for_loop_frame (enumerate (data (before_loop sp s)))
                 (before_loop sp s)) as (_&_&_&_&->&_).
Qed.
End sort_more.

(** X6. Where the query already returns the documents ascending by name
    (names may repeat), the sort of the cell changes nothing: the documents
    are ranked in the order of [docs]. *)
Theorem sorted_input_kept sp s :
  StronglySorted (name_le s) (docs s) →
  sorted_docs s = docs s ∧ data (partition_with sp s) = pairs s.
Proof.
  intros Hs.
  assert (Hp : sort_by_key (pairs s) = pairs s).
  { apply sort_by_key_sorted_id. unfold pairs.
    eapply StronglySorted_fmap; [|exact Hs]. by intros r1 r2. }
  split.
  - unfold sorted_docs. by rewrite Hp, pairs_snd.
  - by rewrite data_partition_with.
Qed.

Lemma sorted_input_kept_witness :
  let s := fresh abcd [2; 1; 3; 0] in
  StronglySorted (name_le s) (docs s)
  ∧ sorted_docs s = docs s
  ∧ data (partition s) = pairs s.
Proof.
  intros s.
  assert (Hs : StronglySorted (name_le s) (docs s)).
  { refine (bool_decide_unpack _ _). vm_compute. exact I. }
  split; [exact Hs|]. exact (sorted_input_kept (1 # 2, 3 # 4)%Q s Hs).
Defined.

(** X7. The sort is by name only and stable: documents that share a name
    are never reordered, they are ranked in the order [docs] has them. *)
Theorem same_name_order_kept (s : notebook) nm :
  filter (λ r, name_of s r = nm) (sorted_docs s)
  = filter (λ r, name_of s r = nm) (docs s).
Proof.
  unfold sorted_docs. rewrite (filter_snd s nm _ (pairs_wf s)).
  rewrite filter_sort_by_key.
  by rewrite <- (filter_snd s nm _ (pairs_wf_unsorted s)), pairs_snd.
Qed.

(** X8. After the cell, [data] holds the (name, document) pairs of [docs],
    each as often as [docs] has it, ascending by name, and [ld] is the
    number of documents. *)
Theorem data_after sp s :
  let s' := partition_with sp s in
  data s' ≡ₚ pairs s
  ∧ StronglySorted key_le (data s')
  ∧ (data s').*2 ≡ₚ docs s
  ∧ length (data s') = ld s' ∧ ld s' = length (docs s).
Proof.
  intros s'. subst s'. rewrite data_partition_with.
  assert (Hld : ld (partition_with sp s) = length (docs s)).
  { rewrite partition_with_before.
    by destruct (for_loop_frame (enumerate (data (before_loop sp s)))
                   (before_loop sp s)) as (_&_&->&_&_&_). }
  rewrite Hld. split; [apply sort_by_key_perm|].
  split; [apply sort_by_key_sorted|]. split; [apply sorted_docs_perm|].
  split; [|done]. rewrite sort_by_key_perm. unfold pairs.
  by rewrite length_fmap.
Qed.

(** ** What the cell prints *)





(** ** Handing the subsets to the extractor *)

Section extraction.
Implicit Types (s : notebook) (c : label) (ds : gset ref) (k : nat).

Lemma extraction_calls s :
  extraction s =
  [Apply (bucket Train s) (split_of Train);
   Apply (bucket Dev s) (split_of Dev);
   Apply (bucket Test s) (split_of Test)].
Proof. reflexivity. Qed.

Lemma elem_of_extraction s ds k :
  Apply ds k ∈ extraction s ↔ ∃ c, ds = bucket c s ∧ k = split_of c.
Proof.
  rewrite extraction_calls, !elem_of_cons, elem_of_nil. split.
  - intros [H|[H|[H|[]]]]; injection H as -> ->;
      [by exists Train|by exists Dev|by exists Test].
  - intros ([]&->&->); auto.
Qed.

Lemma split_of_inj c1 c2 : split_of c1 = split_of c2 → c1 = c2.
Proof. by destruct c1, c2. Qed.
End extraction.

(** X10. Sections 1.3 and 2.2 together: a document of a subset is handed
    to the extractor under the number of that subset (train 0, dev 1,
    test 2), and, where [docs] holds each document once, a document is
    handed over in one call only. *)
Theorem extraction_by_label sp s :
  let s' := partition_with sp s in
  (∀ c r, r ∈ bucket c s' ↔
     ∃ ds, Apply ds (split_of c) ∈ extraction s' ∧ r ∈ ds)
  ∧ (NoDup (docs s) → ∀ r, r ∈ docs s →
       ∃ ds k, Apply ds k ∈ extraction s' ∧ r ∈ ds
         ∧ ∀ ds' k', Apply ds' k' ∈ extraction s' → r ∈ ds' → k' = k).
Proof.
  intros s'. subst s'. split.
  - intros c r. split.
    + intros Hr. exists (bucket c (partition_with sp s)).
      split; [|done]. apply elem_of_extraction. by exists c.
    + intros (ds&(c'&->&Hc)%elem_of_extraction&Hr).
      by apply split_of_inj in Hc as ->.
  - intros Hnd r (c&Hc&Huniq)%(exactly_one sp); [|done].
    exists (bucket c (partition_with sp s)), (split_of c).
    split; [apply elem_of_extraction; by exists c|]. split; [done|].
    intros ds' k' (c'&->&->)%elem_of_extraction Hr. by rewrite (Huniq c').
Qed.

Lemma extraction_by_label_witness :
  NoDup (docs abcd_nb) ∧ 3 ∈ docs abcd_nb
  ∧ ∃ ds k, Apply ds k ∈ extraction (partition abcd_nb) ∧ 3 ∈ ds
      ∧ ∀ ds' k', Apply ds' k' ∈ extraction (partition abcd_nb) →
          3 ∈ ds' → k' = k.
Proof.
  assert (Hnd : NoDup (docs abcd_nb)).
  { refine (bool_decide_unpack _ _). vm_compute. exact I. }
  assert (Hin : 3 ∈ docs abcd_nb).
  { refine (bool_decide_unpack _ _). vm_compute. exact I. }
  split; [exact Hnd|]. split; [exact Hin|].
  exact (proj2 (extraction_by_label (1 # 2, 3 # 4)%Q abcd_nb) Hnd 3 Hin).
Defined.

(** ** The comparison in binary64 *)

Lemma below_half_iff N i : below (1 # 2) N i ↔ 2 * i < N.
Proof. unfold below, of_int, Qlt; simpl. lia. Qed.

Lemma below_three_quarters_iff N i : below (3 # 4) N i ↔ 4 * i < 3 * N.
Proof. unfold below, of_int, Qlt; simpl. lia. Qed.

(** X11. For a corpus of up to 256 documents the conditions of the loop,
    evaluated in binary64 as the interpreter does, send rank [i] to train
    exactly when [2i < N], to dev when [N <= 2i] and [4i < 3N], and to
    test when [3N <= 4i]: rounding never moves a document. *)
Theorem binary64_ranks N i :
  N ≤ 256 → i < N →
  (binary64.branch N i = Train ↔ 2 * i < N)
  ∧ (binary64.branch N i = Dev ↔ N ≤ 2 * i ∧ 4 * i < 3 * N)
  ∧ (binary64.branch N i = Test ↔ 3 * N ≤ 4 * i).
Proof.
  intros HN Hi. rewrite (binary64_branch N i HN Hi).
  rewrite branch_Train, branch_Dev, branch_Test. simpl.
  rewrite below_half_iff, below_three_quarters_iff. lia.
Qed.

Lemma binary64_ranks_witness :
  4 ≤ 256 ∧ 2 < 4 ∧ (binary64.branch 4 2 = Dev ↔ 4 ≤ 2 * 2 ∧ 4 * 2 < 3 * 4).
Proof.
  assert (HN : 4 ≤ 256) by lia. assert (Hi : 2 < 4) by lia.
  split; [exact HN|]. split; [exact Hi|].
  exact (proj1 (proj2 (binary64_ranks 4 2 HN Hi))).
Defined.

(** * Binary64 arithmetic

    What the cell needs of IEEE-754 multiplication and comparison, from
    the library's specification of the primitive floats. *)

Module ieee_facts.
Import SpecFloat ieee.
Local Open Scope Z_scope.

Lemma SFcompare_key x y :
  SFcompare x y =
  match float_key x, float_key y with
  | Some a, Some b => Some (ord_compare a b)
  | _, _ => None
  end.
Proof.
  destruct x as [[]|[]| |[] m1 e1], y as [[]|[]| |[] m2 e2]; try reflexivity;
    unfold SFcompare, float_key, ord_compare; simpl.
  rewrite Z.compare_opp, (Z.compare_antisym e1 e2).
  destruct (e1 ?= e2); reflexivity.
Qed.

Lemma ord_compare_Lt a b : ord_compare a b = Lt ↔ ord_lt a b.
Proof.
  destruct a as [[a1 a2] a3], b as [[b1 b2] b3].
  unfold ord_compare, ord_lt; simpl.
  destruct (Z.compare_spec a1 b1); [|split; [auto|done]|split; [done|lia]].
  destruct (Z.compare_spec a2 b2); [|split; [auto|done]|split; [done|lia]].
  destruct (Z.compare_spec a3 b3); split; try done; try lia.
  all: intros; right; split; [done|]; right; split; done.
Qed.

Lemma ord_compare_Eq a b : ord_compare a b = Eq ↔ a = b.
Proof.
  destruct a as [[a1 a2] a3], b as [[b1 b2] b3].
  unfold ord_compare; simpl.
  destruct (Z.compare_spec a1 b1); [|split; [done|intros [=]; lia]..].
  destruct (Z.compare_spec a2 b2); [|split; [done|intros [=]; lia]..].
  destruct (Z.compare_spec a3 b3); split; try done; try (intros [=]; lia).
  intros _. by subst.
Qed.

Lemma SFltb_key x y :
  SFltb x y = true ↔ ∃ a b, float_key x = Some a ∧ float_key y = Some b ∧ ord_lt a b.
Proof.
  unfold SFltb. rewrite SFcompare_key.
  destruct (float_key x) as [a|], (float_key y) as [b|];
    try (split; [done|intros (?&?&?&?&?); done]).
  pose proof (ord_compare_Lt a b) as H.
  destruct (ord_compare a b); split; try done.
  - intros (?&?&[= <-]&[= <-]&Hlt). by apply H in Hlt.
  - intros _. exists a, b. split; [done|]. split; [done|]. by apply H.
  - intros (?&?&[= <-]&[= <-]&Hlt). by apply H in Hlt.
Qed.

Lemma ord_le_alt a b : ord_le a b ↔ ord_lt a b ∨ a = b.
Proof.
  destruct a as [[a1 a2] a3], b as [[b1 b2] b3].
  unfold ord_le, ord_lt; simpl. split.
  - intros [?|[? [?|[? ?]]]]; try (left; lia).
    destruct (Z.eq_dec a3 b3); [right; congruence|left; lia].
  - intros [?|[=]]; lia.
Qed.

Lemma SFleb_key x y :
  SFleb x y = true ↔ ∃ a b, float_key x = Some a ∧ float_key y = Some b ∧ ord_le a b.
Proof.
  unfold SFleb. rewrite SFcompare_key.
  destruct (float_key x) as [a|], (float_key y) as [b|];
    try (split; [done|intros (?&?&?&?&?); done]).
  pose proof (ord_compare_Lt a b) as HL. pose proof (ord_compare_Eq a b) as HE.
  pose proof (ord_le_alt a b) as HA.
  destruct (ord_compare a b); split; try done.
  - intros _. exists a, b. split; [done|]. split; [done|]. apply HA. right. by apply HE.
  - intros _. exists a, b. split; [done|]. split; [done|]. apply HA. left. by apply HL.
  - intros (?&?&[= <-]&[= <-]&[Hlt|Heq]%HA).
    + by apply HL in Hlt.
    + by apply HE in Heq.
Qed.

Lemma shr_1_spec m r s :
  0 <= m →
  shr_1 {| shr_m := m; shr_r := r; shr_s := s |} =
  {| shr_m := m / 2; shr_r := Z.odd m; shr_s := r || s |}.
Proof.
  intros Hm. destruct m as [|[p|p|]|]; try lia; simpl.
  - reflexivity.
  - f_equal. change (Z.pos p~1) with (2 * Z.pos p + 1).
    apply (Z.div_unique _ _ _ 1); lia.
  - f_equal. change (Z.pos p~0) with (2 * Z.pos p).
    apply (Z.div_unique _ _ _ 0); lia.
  - reflexivity.
Qed.

Lemma iter_pos_nat {A} (f : A → A) p x :
  iter_pos f p x = Nat.iter (Pos.to_nat p) f x.
Proof.
  revert x. induction p as [p IH|p IH|]; intros x; cbn [iter_pos].
  - rewrite !IH, Pos2Nat.inj_xI.
    replace (S (2 * Pos.to_nat p))%nat
      with (Pos.to_nat p + (Pos.to_nat p + 1))%nat by lia.
    by rewrite !Nat.iter_add.
  - rewrite !IH, Pos2Nat.inj_xO.
    replace (2 * Pos.to_nat p)%nat
      with (Pos.to_nat p + Pos.to_nat p)%nat by lia.
    by rewrite Nat.iter_add.
  - reflexivity.
Qed.

Lemma mod_split M k :
  0 <= M → 0 <= k →
  M mod 2 ^ (k + 1) = 2 ^ k * ((M / 2 ^ k) mod 2) + M mod 2 ^ k.
Proof.
  intros HM Hk. rewrite Z.pow_add_r, Z.pow_1_r by lia.
  rewrite Z.rem_mul_r by lia. lia.
Qed.

Lemma shr_iter M (j : nat) :
  0 <= M →
  Nat.iter (S j) shr_1 {| shr_m := M; shr_r := false; shr_s := false |} =
  {| shr_m := M / 2 ^ Z.of_nat (S j);
     shr_r := 2 ^ (Z.of_nat (S j) - 1) <=? M mod 2 ^ Z.of_nat (S j);
     shr_s := negb (M mod 2 ^ (Z.of_nat (S j) - 1) =? 0) |}.
Proof.
  intros HM. induction j as [|j IH].
  - rewrite Nat.iter_succ. change (Nat.iter 0 shr_1 ?x) with x.
    rewrite shr_1_spec by done. change (Z.of_nat 1) with 1.
    change (1 - 1) with 0. change (2 ^ 1) with 2. change (2 ^ 0) with 1.
    rewrite Z.mod_1_r. f_equal.
    rewrite Zodd_mod. pose proof (Z.mod_pos_bound M 2 ltac:(lia)).
    destruct (Z.eqb_spec (M mod 2) 1), (Z.leb_spec 1 (M mod 2)); lia || done.
  - rewrite Nat.iter_succ, IH. clear IH.
    set (k := Z.of_nat (S j)). assert (Hk : 1 <= k) by lia.
    replace (Z.of_nat (S (S j))) with (k + 1) by lia.
    replace (k + 1 - 1) with k by lia.
    assert (0 <= M / 2 ^ k) by (apply Z.div_pos; lia).
    rewrite shr_1_spec by done. f_equal.
    + replace (2 ^ (k + 1)) with (2 ^ k * 2)
        by (rewrite Z.pow_add_r by lia; lia).
      by rewrite Z.div_div by lia.
    + pose proof (mod_split M k HM ltac:(lia)) as Hs.
      pose proof (Z.mod_pos_bound M (2 ^ k) ltac:(lia)).
      pose proof (Z.mod_pos_bound (M / 2 ^ k) 2 ltac:(lia)).
      rewrite Zodd_mod.
      destruct (Z.eqb_spec ((M / 2 ^ k) mod 2) 1), (Z.leb_spec (2 ^ k) (M mod 2 ^ (k + 1))); try done; nia.
    + pose proof (mod_split M (k - 1) HM ltac:(lia)) as Hs.
      replace (k - 1 + 1) with k in Hs by lia.
      pose proof (Z.mod_pos_bound M (2 ^ (k - 1)) ltac:(lia)).
      pose proof (Z.mod_pos_bound (M / 2 ^ (k - 1)) 2 ltac:(lia)) as Hb.
      assert (0 < 2 ^ (k - 1)) by lia.
      set (b := (M / 2 ^ (k - 1)) mod 2) in *.
      assert (Hb' : b = 0 ∨ b = 1) by lia.
      destruct (Z.leb_spec (2 ^ (k - 1)) (M mod 2 ^ k)),
        (Z.eqb_spec (M mod 2 ^ (k - 1)) 0), (Z.eqb_spec (M mod 2 ^ k) 0);
        simpl; try done; destruct Hb' as [Hb'|Hb']; rewrite Hb' in Hs; lia.
Qed.

Lemma rnd_le0 M k : k <= 0 → rnd M k = M.
Proof. intros Hk. unfold rnd. destruct (Z.leb_spec k 0); [done|lia]. Qed.

Lemma rnd_pos M k :
  0 < k →
  rnd M k = rne (M / 2 ^ k) (2 ^ (k - 1) <=? M mod 2 ^ k)
                (negb (M mod 2 ^ (k - 1) =? 0)).
Proof. intros Hk. unfold rnd. destruct (Z.leb_spec k 0); [lia|done]. Qed.

Lemma rne_bounds q r s : q <= rne q r s <= q + 1.
Proof. unfold rne. destruct r, s, (Z.even q); lia. Qed.

Lemma shr_round M E n :
  0 <= M →
  ∃ mrs, shr (shr_record_of_loc M loc_Exact) E n = (mrs, E + Z.max n 0)
         ∧ round_nearest_even (shr_m mrs) (loc_of_shr_record mrs) = rnd M n.
Proof.
  intros HM. destruct n as [|p|p]; simpl shr.
  - eexists. split; [by rewrite Z.add_0_r|]. by rewrite rnd_le0.
  - eexists. split; [reflexivity|].
    rewrite iter_pos_nat. destruct (Pos2Nat.is_succ p) as [j Hj]. rewrite Hj.
    simpl shr_record_of_loc. rewrite shr_iter by done.
    replace (Z.of_nat (S j)) with (Z.pos p) by lia.
    rewrite rnd_pos by lia. simpl shr_m. unfold loc_of_shr_record, rne.
    destruct (_ <=? _), (negb _); reflexivity.
  - eexists. split; [by rewrite Z.add_0_r|]. by rewrite rnd_le0.
Qed.

Lemma rnd_mono M1 M2 k : 0 <= M1 → M1 <= M2 → rnd M1 k <= rnd M2 k.
Proof.
  intros H1 H12. destruct (Z.leb_spec k 0) as [Hk|Hk].
  { by rewrite !rnd_le0. }
  rewrite !rnd_pos by done.
  assert (Hh : 0 < 2 ^ (k - 1)) by lia.
  assert (H2k : 2 ^ k = 2 * 2 ^ (k - 1)).
  { rewrite <- Z.pow_succ_r by lia. f_equal. lia. }
  pose proof (rne_bounds (M1 / 2 ^ k) (2 ^ (k - 1) <=? M1 mod 2 ^ k)
                (negb (M1 mod 2 ^ (k - 1) =? 0))) as B1.
  pose proof (rne_bounds (M2 / 2 ^ k) (2 ^ (k - 1) <=? M2 mod 2 ^ k)
                (negb (M2 mod 2 ^ (k - 1) =? 0))) as B2.
  assert (Hq : M1 / 2 ^ k <= M2 / 2 ^ k) by (apply Z.div_le_mono; lia).
  destruct (Z.eq_dec (M1 / 2 ^ k) (M2 / 2 ^ k)) as [Heq|Hne]; [|lia].
  pose proof (Z.div_mod M1 (2 ^ k) ltac:(lia)) as D1.
  pose proof (Z.div_mod M2 (2 ^ k) ltac:(lia)) as D2.
  pose proof (Z.mod_pos_bound M1 (2 ^ k) ltac:(lia)) as R1.
  pose proof (Z.mod_pos_bound M2 (2 ^ k) ltac:(lia)) as R2.
  pose proof (mod_split M1 (k - 1) ltac:(lia) ltac:(lia)) as S1.
  pose proof (mod_split M2 (k - 1) ltac:(lia) ltac:(lia)) as S2.
  replace (k - 1 + 1) with k in S1, S2 by lia.
  pose proof (Z.mod_pos_bound M1 (2 ^ (k - 1)) ltac:(lia)) as T1.
  pose proof (Z.mod_pos_bound M2 (2 ^ (k - 1)) ltac:(lia)) as T2.
  pose proof (Z.mod_pos_bound (M1 / 2 ^ (k - 1)) 2 ltac:(lia)) as Hb1.
  pose proof (Z.mod_pos_bound (M2 / 2 ^ (k - 1)) 2 ltac:(lia)) as Hb2.
  set (b1 := (M1 / 2 ^ (k - 1)) mod 2) in *.
  set (b2 := (M2 / 2 ^ (k - 1)) mod 2) in *.
  assert (Hr : M1 mod 2 ^ k <= M2 mod 2 ^ k).
  { rewrite Heq in D1. lia. }
  rewrite Heq. unfold rne.
  assert (b1 = 0 ∨ b1 = 1) as [E1|E1] by lia;
  assert (b2 = 0 ∨ b2 = 1) as [E2|E2] by lia;
  rewrite E1 in S1; rewrite E2 in S2;
  destruct (Z.leb_spec (2 ^ (k - 1)) (M1 mod 2 ^ k)),
    (Z.leb_spec (2 ^ (k - 1)) (M2 mod 2 ^ k)),
    (Z.eqb_spec (M1 mod 2 ^ (k - 1)) 0), (Z.eqb_spec (M2 mod 2 ^ (k - 1)) 0),
    (Z.even (M2 / 2 ^ k)); simpl; lia.
Qed.

Lemma rnd_shift M j k :
  0 <= M → 0 <= j → 0 <= k → rnd (M * 2 ^ j) (k + j) = rnd M k.
Proof.
  intros HM Hj Hk.
  destruct (Z.eq_dec j 0) as [->|Hj0].
  { by rewrite Z.mul_1_r, Z.add_0_r. }
  assert (H2j : 0 < 2 ^ j) by lia.
  rewrite (rnd_pos _ (k + j)) by lia.
  rewrite Z.pow_add_r by lia.
  rewrite Z.div_mul_cancel_r by lia.
  rewrite Z.mul_mod_distr_r by lia.
  destruct (Z.eq_dec k 0) as [->|Hk0].
  - rewrite rnd_le0 by lia. change (2 ^ 0) with 1.
    rewrite Z.div_1_r, Z.mod_1_r, Z.mul_0_l. unfold rne.
    assert (0 < 2 ^ (0 + j - 1)) by lia.
    destruct (Z.leb_spec (2 ^ (0 + j - 1)) 0); [lia|done].
  - rewrite rnd_pos by lia.
    replace (k + j - 1) with ((k - 1) + j) by lia.
    rewrite (Z.pow_add_r 2 (k - 1) j) by lia.
    rewrite Z.mul_mod_distr_r by lia. f_equal.
    + destruct (Z.leb_spec (2 ^ (k - 1) * 2 ^ j) (M mod 2 ^ k * 2 ^ j)),
        (Z.leb_spec (2 ^ (k - 1)) (M mod 2 ^ k)); try done; nia.
    + f_equal.
      destruct (Z.eqb_spec (M mod 2 ^ (k - 1) * 2 ^ j) 0),
        (Z.eqb_spec (M mod 2 ^ (k - 1)) 0); try done; nia.
Qed.

(** ** Digits *)

Lemma digits2_pos_bounds p :
  2 ^ (Z.pos (digits2_pos p) - 1) <= Z.pos p < 2 ^ Z.pos (digits2_pos p).
Proof.
  induction p as [p IH|p IH|]; cbn [digits2_pos].
  - rewrite Pos2Z.inj_succ. change (Z.pos p~1) with (2 * Z.pos p + 1).
    replace (Z.succ (Z.pos (digits2_pos p)) - 1)
      with (Z.succ (Z.pos (digits2_pos p) - 1)) by lia.
    rewrite !Z.pow_succ_r by lia.
    generalize dependent (2 ^ (Z.pos (digits2_pos p) - 1)).
    generalize dependent (2 ^ Z.pos (digits2_pos p)). intros; lia.
  - rewrite Pos2Z.inj_succ. change (Z.pos p~0) with (2 * Z.pos p).
    replace (Z.succ (Z.pos (digits2_pos p)) - 1)
      with (Z.succ (Z.pos (digits2_pos p) - 1)) by lia.
    rewrite !Z.pow_succ_r by lia.
    generalize dependent (2 ^ (Z.pos (digits2_pos p) - 1)).
    generalize dependent (2 ^ Z.pos (digits2_pos p)). intros; lia.
  - simpl. lia.
Qed.

Lemma Zdigits2_bounds M :
  0 < M → 0 < Zdigits2 M ∧ 2 ^ (Zdigits2 M - 1) <= M < 2 ^ Zdigits2 M.
Proof.
  destruct M as [|p|p]; try lia. intros _. simpl.
  split; [lia|apply digits2_pos_bounds].
Qed.

Lemma Zdigits2_le M d : 0 < M → M < 2 ^ d → Zdigits2 M <= d.
Proof.
  intros HM Hd. destruct (Zdigits2_bounds M HM) as (Hp&Hl&_).
  destruct (Z.le_gt_cases (Zdigits2 M) d) as [|Hgt]; [done|].
  assert (0 <= d).
  { destruct (Z.le_gt_cases 0 d); [done|]. rewrite Z.pow_neg_r in Hd; lia. }
  assert (2 ^ d <= 2 ^ (Zdigits2 M - 1)) by (apply Z.pow_le_mono_r; lia).
  lia.
Qed.

Lemma Zdigits2_ge M d : 0 < M → 2 ^ (d - 1) <= M → d <= Zdigits2 M.
Proof.
  intros HM Hd. destruct (Zdigits2_bounds M HM) as (Hp&_&Hu).
  destruct (Z.le_gt_cases d (Zdigits2 M)) as [|Hgt]; [done|].
  assert (2 ^ Zdigits2 M <= 2 ^ (d - 1)) by (apply Z.pow_le_mono_r; lia).
  lia.
Qed.

Lemma Zdigits2_mono M1 M2 : 0 < M1 → M1 <= M2 → Zdigits2 M1 <= Zdigits2 M2.
Proof.
  intros H1 H12. apply Zdigits2_le; [done|].
  destruct (Zdigits2_bounds M2 ltac:(lia)) as (_&_&Hu). lia.
Qed.

Lemma Zdigits2_shift M j : 0 < M → 0 <= j → Zdigits2 (M * 2 ^ j) = Zdigits2 M + j.
Proof.
  intros HM Hj. destruct (Zdigits2_bounds M HM) as (Hp&Hl&Hu).
  assert (0 < 2 ^ j) by lia. apply Z.le_antisymm.
  - apply Zdigits2_le; [lia|]. rewrite Z.pow_add_r by lia. nia.
  - apply Zdigits2_ge; [lia|].
    replace (Zdigits2 M + j - 1) with (Zdigits2 M - 1 + j) by lia.
    rewrite Z.pow_add_r by lia. nia.
Qed.

(** ** The rounding of [binary_round_aux], in integers *)

Lemma fexp_64 e : fexp 53 1024 e = fexp64 e.
Proof. reflexivity. Qed.

Lemma shr_exact M E n :
  0 <= M → n <= 0 →
  shr (shr_record_of_loc M loc_Exact) E n =
  ({| shr_m := M; shr_r := false; shr_s := false |}, E).
Proof. intros HM Hn. destruct n; try lia; reflexivity. Qed.

Lemma rnd_upper M E :
  0 < M → E <= fexp64 (Zdigits2 M + E) →
  0 <= rnd M (fexp64 (Zdigits2 M + E) - E) <= 2 ^ 53.
Proof.
  intros HM HE. set (ex := fexp64 (Zdigits2 M + E)) in *.
  destruct (Zdigits2_bounds M HM) as (Hp&Hl&Hu).
  destruct (Z.eq_dec (ex - E) 0) as [H0|H0].
  - rewrite rnd_le0 by lia. split; [lia|].
    assert (Zdigits2 M <= 53) by (unfold ex, fexp64 in *; lia).
    assert (2 ^ Zdigits2 M <= 2 ^ 53) by (apply Z.pow_le_mono_r; lia). lia.
  - rewrite rnd_pos by lia.
    match goal with |- _ <= rne ?q ?r ?s <= _ =>
      pose proof (rne_bounds q r s) as B end.
    assert (0 <= M / 2 ^ (ex - E)) by (apply Z.div_pos; lia).
    assert (M / 2 ^ (ex - E) < 2 ^ 53); [|lia].
    apply Z.div_lt_upper_bound; [lia|].
    rewrite <- Z.pow_add_r by lia.
    assert (2 ^ Zdigits2 M <= 2 ^ (ex - E + 53)); [|lia].
    apply Z.pow_le_mono_r; [lia|]. unfold ex, fexp64 in *. lia.
Qed.

Lemma binary_round_aux_spec sx M E :
  0 < M → E <= fexp64 (Zdigits2 M + E) →
  binary_round_aux 53 1024 sx M E loc_Exact = pack sx (Rz M E).
Proof.
  intros HM HE. pose proof (rnd_upper M E HM HE) as Hm.
  unfold binary_round_aux, shr_fexp. rewrite !fexp_64.
  set (ex := fexp64 (Zdigits2 M + E)) in *.
  destruct (shr_round M E (ex - E) ltac:(lia)) as (mrs&->&->).
  replace (E + Z.max (ex - E) 0) with ex by lia.
  unfold Rz. fold ex. set (m := rnd M (ex - E)) in *.
  assert (Hex : -1074 <= ex) by (unfold ex, fexp64; lia).
  destruct (Z.leb_spec (2 ^ 53) m) as [Hc|Hc].
  - assert (m = 2 ^ 53) as -> by lia.
    change (Zdigits2 (2 ^ 53)) with 54.
    replace (fexp 53 1024 (54 + ex) - ex) with 1
      by (unfold fexp, emin; lia).
    reflexivity.
  - destruct (Z.eq_dec m 0) as [->|Hm0].
    + simpl Zdigits2. rewrite shr_exact by (unfold fexp, emin; lia).
      reflexivity.
    + assert (Zdigits2 m <= 53) by (apply Zdigits2_le; lia).
      rewrite shr_exact by (unfold fexp, emin; lia).
      unfold pack. simpl. destruct m; try lia. reflexivity.
Qed.

(** ** Monotonicity of the rounding *)

Lemma float_key_pack_pos me : float_key (pack false me) = Some (pkey me).
Proof.
  destruct me as [[|m|m] e]; unfold pack, pkey; simpl; try done.
  destruct (e <=? 971); done.
Qed.

Lemma float_key_pack_neg me :
  float_key (pack true me) =
  Some (- (pkey me).1.1, - (pkey me).1.2, - (pkey me).2).
Proof.
  destruct me as [[|m|m] e]; unfold pack, pkey; simpl; try done.
  destruct (e <=? 971); done.
Qed.

Lemma Rz_shift M E j :
  0 < M → 0 <= j → E <= fexp64 (Zdigits2 M + E) →
  Rz (M * 2 ^ j) (E - j) = Rz M E.
Proof.
  intros HM Hj HE. unfold Rz.
  rewrite Zdigits2_shift by done.
  replace (Zdigits2 M + j + (E - j)) with (Zdigits2 M + E) by lia.
  set (ex := fexp64 (Zdigits2 M + E)) in *.
  replace (ex - (E - j)) with (ex - E + j) by lia.
  by rewrite rnd_shift by lia.
Qed.

Lemma Rz_mono_aligned M1 M2 E :
  0 < M1 → M1 <= M2 → E <= fexp64 (Zdigits2 M1 + E) →
  ord_le (pkey (Rz M1 E)) (pkey (Rz M2 E)).
Proof.
  intros H1 H12 HE1.
  pose proof (Zdigits2_mono M1 M2 H1 H12) as Hd.
  assert (HE2 : E <= fexp64 (Zdigits2 M2 + E)) by (unfold fexp64 in *; lia).
  pose proof (rnd_upper M1 E H1 HE1) as Hm1.
  pose proof (rnd_upper M2 E ltac:(lia) HE2) as Hm2.
  unfold Rz.
  set (ex1 := fexp64 (Zdigits2 M1 + E)) in *.
  set (ex2 := fexp64 (Zdigits2 M2 + E)) in *.
  assert (Hex : ex1 <= ex2) by (unfold ex1, ex2, fexp64; lia).
  set (m1 := rnd M1 (ex1 - E)) in *. set (m2 := rnd M2 (ex2 - E)) in *.
  assert (Hcase : (ex1 = ex2 ∧ m1 <= m2) ∨ (ex1 < ex2 ∧ 2 ^ 52 <= m2)).
  { destruct (Z.eq_dec ex1 ex2) as [Heq|Hne].
    - left. split; [done|]. unfold m1, m2. rewrite Heq.
      apply rnd_mono; lia.
    - right. split; [lia|].
      assert (Hk : 0 < ex2 - E) by lia.
      unfold m2. rewrite rnd_pos by done.
      match goal with |- _ <= rne ?q ?r ?s =>
        pose proof (rne_bounds q r s) as B end.
      assert (2 ^ 52 <= M2 / 2 ^ (ex2 - E)); [|lia].
      apply Z.div_le_lower_bound; [lia|].
      rewrite <- Z.pow_add_r by lia.
      destruct (Zdigits2_bounds M2 ltac:(lia)) as (_&Hl&_).
      assert (2 ^ (ex2 - E + 52) <= 2 ^ (Zdigits2 M2 - 1)); [|lia].
      apply Z.pow_le_mono_r; [lia|]. unfold ex1, ex2, fexp64 in *. lia. }
  unfold ord_le, pkey.
  destruct (Z.leb_spec (2 ^ 53) m1), (Z.leb_spec (2 ^ 53) m2); simpl;
    repeat match goal with
      | |- context [?a <=? ?b] => destruct (Z.leb_spec a b); simpl
      end; lia.
Qed.

Lemma Rz_mono M1 E1 M2 E2 :
  0 < M1 → 0 < M2 →
  E1 <= fexp64 (Zdigits2 M1 + E1) → E2 <= fexp64 (Zdigits2 M2 + E2) →
  M1 * 2 ^ (E1 - Z.min E1 E2) <= M2 * 2 ^ (E2 - Z.min E1 E2) →
  ord_le (pkey (Rz M1 E1)) (pkey (Rz M2 E2)).
Proof.
  intros H1 H2 HE1 HE2 Hv. set (E0 := Z.min E1 E2) in *.
  rewrite <- (Rz_shift M1 E1 (E1 - E0)) by lia.
  rewrite <- (Rz_shift M2 E2 (E2 - E0)) by lia.
  replace (E1 - (E1 - E0)) with E0 by lia.
  replace (E2 - (E2 - E0)) with E0 by lia.
  assert (0 < 2 ^ (E1 - E0)) by lia.
  apply Rz_mono_aligned; [lia|done|].
  rewrite Zdigits2_shift by lia.
  replace (Zdigits2 M1 + (E1 - E0) + E0) with (Zdigits2 M1 + E1) by lia. lia.
Qed.

(** ** Canonical floats *)

Lemma bounded_canonical m e :
  bounded 53 1024 m e = true →
  fexp64 (Zdigits2 (Z.pos m) + e) = e ∧ e <= 971.
Proof.
  unfold bounded, canonical_mantissa. rewrite fexp_64.
  intros [H1 H2]%andb_prop. split; [by apply Z.eqb_eq|by apply Z.leb_le].
Qed.

Lemma canonical_value_le m1 e1 m2 e2 :
  fexp64 (Zdigits2 (Z.pos m1) + e1) = e1 →
  fexp64 (Zdigits2 (Z.pos m2) + e2) = e2 →
  ord_le (1, e1, Z.pos m1) (1, e2, Z.pos m2) →
  Z.pos m1 * 2 ^ (e1 - Z.min e1 e2) <= Z.pos m2 * 2 ^ (e2 - Z.min e1 e2).
Proof.
  intros C1 C2 Hle. unfold ord_le in Hle; simpl in Hle.
  destruct (Zdigits2_bounds (Z.pos m1) ltac:(lia)) as (_&_&Hu1).
  destruct (Zdigits2_bounds (Z.pos m2) ltac:(lia)) as (_&Hl2&_).
  unfold fexp64 in C1, C2.
  destruct Hle as [?|[_ [Hlt|[Heq Hm]]]]; [lia| |].
  - replace (Z.min e1 e2) with e1 by lia.
    replace (e1 - e1) with 0 by lia. rewrite Z.pow_0_r, Z.mul_1_r.
    assert (Hd2 : Zdigits2 (Z.pos m2) = 53) by lia.
    assert (Hd1 : Zdigits2 (Z.pos m1) <= 53) by lia.
    rewrite Hd2 in Hl2. change (2 ^ (53 - 1)) with (2 ^ 52) in Hl2.
    assert (2 ^ Zdigits2 (Z.pos m1) <= 2 ^ 53) by (apply Z.pow_le_mono_r; lia).
    assert (2 ^ 1 <= 2 ^ (e2 - e1)) by (apply Z.pow_le_mono_r; lia).
    change (2 ^ 1) with 2 in *. nia.
  - subst e2. rewrite Z.min_id, Z.sub_diag, Z.pow_0_r. lia.
Qed.

Lemma product_roundable m e mn en :
  fexp64 (Zdigits2 (Z.pos m) + e) = e →
  fexp64 (Zdigits2 (Z.pos mn) + en) = en →
  e + en <= fexp64 (Zdigits2 (Z.pos m * Z.pos mn) + (e + en)).
Proof.
  intros C1 C2.
  destruct (Zdigits2_bounds (Z.pos m) ltac:(lia)) as (Hp1&Hl1&_).
  destruct (Zdigits2_bounds (Z.pos mn) ltac:(lia)) as (Hp2&Hl2&_).
  assert (Hd : Zdigits2 (Z.pos m) + Zdigits2 (Z.pos mn) - 1
               <= Zdigits2 (Z.pos m * Z.pos mn)).
  { apply Zdigits2_ge; [lia|].
    replace (Zdigits2 (Z.pos m) + Zdigits2 (Z.pos mn) - 1 - 1)
      with ((Zdigits2 (Z.pos m) - 1) + (Zdigits2 (Z.pos mn) - 1)) by lia.
    rewrite Z.pow_add_r by lia.
    assert (0 < 2 ^ (Zdigits2 (Z.pos m) - 1)) by lia.
    assert (0 < 2 ^ (Zdigits2 (Z.pos mn) - 1)) by lia. nia. }
  unfold fexp64 in *. lia.
Qed.

(** ** Multiplication by a positive finite float is monotone *)

Lemma pkey_range me :
  (pkey me = (0, 0, 0)) ∨ (pkey me).1.1 = 1 ∨ (pkey me = (2, 0, 0)).
Proof.
  unfold pkey. destruct (me.1 <=? 0); [by left|].
  destruct (me.2 <=? 971); [right; by left|right; by right].
Qed.

Lemma SFmul_finite s m e mn en :
  bounded 53 1024 m e = true → bounded 53 1024 mn en = true →
  SFmul 53 1024 (S754_finite s m e) (S754_finite false mn en) =
  pack s (Rz (Z.pos m * Z.pos mn) (e + en)).
Proof.
  intros [C1 _]%bounded_canonical [C2 _]%bounded_canonical.
  unfold SFmul. rewrite xorb_false_r, Pos2Z.inj_mul.
  apply binary_round_aux_spec; [lia|by apply product_roundable].
Qed.

Lemma SFleb_pack_pos me1 me2 :
  ord_le (pkey me1) (pkey me2) →
  SFleb (pack false me1) (pack false me2) = true.
Proof.
  intros Hle. apply SFleb_key. exists (pkey me1), (pkey me2).
  by rewrite !float_key_pack_pos.
Qed.

Lemma SFleb_pack_neg me1 me2 :
  ord_le (pkey me2) (pkey me1) →
  SFleb (pack true me1) (pack true me2) = true.
Proof.
  intros Hle. apply SFleb_key. eexists _, _.
  rewrite !float_key_pack_neg. split; [done|]. split; [done|].
  unfold ord_le in *; simpl. lia.
Qed.

Lemma SFleb_pack_neg_pos me1 me2 :
  SFleb (pack true me1) (pack false me2) = true.
Proof.
  apply SFleb_key. eexists _, _.
  rewrite float_key_pack_neg, float_key_pack_pos.
  split; [done|]. split; [done|].
  unfold ord_le; simpl.
  destruct (pkey_range me1) as [->|[?| ->]],
    (pkey_range me2) as [->|[?| ->]]; simpl; lia.
Qed.

Lemma SFmul_mono x y mn en :
  valid_binary 53 1024 x = true → valid_binary 53 1024 y = true →
  bounded 53 1024 mn en = true →
  SFleb x y = true →
  SFleb (SFmul 53 1024 x (S754_finite false mn en))
        (SFmul 53 1024 y (S754_finite false mn en)) = true.
Proof.
  intros Vx Vy Vn Hxy.
  destruct x as [sx|sx| |sx mx ex], y as [sy|sy| |sy my ey];
    try discriminate Hxy;
    rewrite ?SFmul_finite by done;
    try (destruct sx; try discriminate Hxy);
    try (destruct sy; try discriminate Hxy);
    try reflexivity; cbn [SFmul xorb].
  all: try (apply SFleb_key; eexists _, _;
            rewrite ?float_key_pack_pos, ?float_key_pack_neg;
            (split; [reflexivity|]); (split; [reflexivity|]);
            unfold ord_le; cbn [fst snd];
            match goal with
            | |- context [pkey ?me] =>
                destruct (pkey_range me) as [->|[?| ->]]; simpl; lia
            end).
  - (* both negative *)
    apply SFleb_pack_neg.
    simpl in Vx, Vy. apply bounded_canonical in Vn as [Cn _].
    apply bounded_canonical in Vx as [Cx _].
    apply bounded_canonical in Vy as [Cy _].
    apply SFleb_key in Hxy as (a&b&[= <-]&[= <-]&Hab).
    apply Rz_mono; try lia; try by apply product_roundable.
    assert (Hv : Z.pos my * 2 ^ (ey - Z.min ey ex)
                 <= Z.pos mx * 2 ^ (ex - Z.min ey ex)).
    { apply canonical_value_le; [done..|]. unfold ord_le in *. simpl in *. lia. }
    replace (ey + en - Z.min (ey + en) (ex + en)) with (ey - Z.min ey ex) by lia.
    replace (ex + en - Z.min (ey + en) (ex + en)) with (ex - Z.min ey ex) by lia.
    nia.
  - apply SFleb_pack_neg_pos.
  - (* both positive *)
    apply SFleb_pack_pos.
    simpl in Vx, Vy. apply bounded_canonical in Vn as [Cn _].
    apply bounded_canonical in Vx as [Cx _].
    apply bounded_canonical in Vy as [Cy _].
    apply SFleb_key in Hxy as (a&b&[= <-]&[= <-]&Hab).
    apply Rz_mono; try lia; try by apply product_roundable.
    assert (Hv : Z.pos mx * 2 ^ (ex - Z.min ex ey)
                 <= Z.pos my * 2 ^ (ey - Z.min ex ey)).
    { by apply canonical_value_le. }
    replace (ex + en - Z.min (ex + en) (ey + en)) with (ex - Z.min ex ey) by lia.
    replace (ey + en - Z.min (ex + en) (ey + en)) with (ey - Z.min ex ey) by lia.
    nia.
Qed.

(** ** Integers as floats *)

Lemma pos_iter_xO p k : Z.pos (Pos.iter xO p k) = Z.pos p * 2 ^ Z.pos k.
Proof.
  induction k as [|k IH] using Pos.peano_ind.
  - simpl. lia.
  - rewrite Pos.iter_succ, Pos2Z.inj_succ, Z.pow_succ_r by lia.
    change (Z.pos (Pos.iter xO p k)~0) with (2 * Z.pos (Pos.iter xO p k)).
    rewrite IH. lia.
Qed.

Lemma binary_normalize_nat z :
  0 <= z < 2 ^ 63 →
  ∃ me, binary_normalize 53 1024 z 0 false = pack false me ∧ me.2 <= 971.
Proof.
  intros Hz. destruct z as [|p|p]; try lia.
  { exists (0, 0). split; [reflexivity|simpl; lia]. }
  unfold binary_normalize, binary_round, shl_align. rewrite fexp_64.
  change (Z.pos (digits2_pos p)) with (Zdigits2 (Z.pos p)).
  destruct (Zdigits2_bounds (Z.pos p) ltac:(lia)) as (Hp&Hl&Hu).
  assert (Hd : Zdigits2 (Z.pos p) <= 63) by (apply Zdigits2_le; lia).
  set (d := Zdigits2 (Z.pos p)) in *.
  destruct (fexp64 (d + 0) - 0) as [|k|k] eqn:Hk.
  - rewrite binary_round_aux_spec; [|lia|fold d; lia].
    eexists. split; [reflexivity|]. unfold Rz. fold d.
    destruct (_ <=? _); simpl; unfold fexp64; lia.
  - rewrite binary_round_aux_spec; [|lia|fold d; lia].
    eexists. split; [reflexivity|]. unfold Rz. fold d.
    destruct (_ <=? _); simpl; unfold fexp64; lia.
  - assert (Hf : fexp64 (d + 0) = Z.neg k) by lia.
    assert (HM : Z.pos (Pos.iter xO p k) = Z.pos p * 2 ^ Z.pos k)
      by apply pos_iter_xO.
    assert (Hdig : Zdigits2 (Z.pos (Pos.iter xO p k)) = d + Z.pos k).
    { rewrite HM. by apply Zdigits2_shift. }
    assert (Hr : fexp64 (Zdigits2 (Z.pos (Pos.iter xO p k)) + fexp64 (d + 0))
                 = fexp64 (d + 0)).
    { rewrite Hdig, Hf. replace (d + Z.pos k + Z.neg k) with (d + 0) by lia.
      done. }
    rewrite binary_round_aux_spec; [|lia|lia].
    eexists. split; [reflexivity|]. unfold Rz. rewrite Hr.
    destruct (_ <=? _); simpl; unfold fexp64; lia.
Qed.

Lemma pack_shape me :
  me.2 <= 971 →
  pack false me = S754_zero false ∨ ∃ m, pack false me = S754_finite false m me.2.
Proof.
  intros He. unfold pack. destruct me.1 as [|m|m]; [by left| |by left].
  destruct (Z.leb_spec me.2 971); [|lia]. right. by exists m.
Qed.

(** ** Primitive floats *)

Lemma ltb_fkey x y :
  PrimFloat.ltb x y = true ↔
  ∃ a b, fkey x = Some a ∧ fkey y = Some b ∧ ord_lt a b.
Proof. rewrite FloatAxioms.ltb_spec. apply SFltb_key. Qed.

Lemma leb_fkey x y :
  PrimFloat.leb x y = true ↔
  ∃ a b, fkey x = Some a ∧ fkey y = Some b ∧ ord_le a b.
Proof. rewrite FloatAxioms.leb_spec. apply SFleb_key. Qed.

Lemma of_int_shape n :
  FloatOps.Prim2SF (binary64.of_int n) = S754_zero false
  ∨ ∃ m e, FloatOps.Prim2SF (binary64.of_int n) = S754_finite false m e.
Proof.
  unfold binary64.of_int. rewrite FloatAxioms.of_uint63_spec, Uint63.of_Z_spec.
  change FloatOps.prec with 53. change FloatOps.emax with 1024.
  destruct (binary_normalize_nat (Z.of_nat n mod Uint63.wB)) as (me&->&He).
  { apply Z.mod_pos_bound. reflexivity. }
  destruct (pack_shape me He) as [->|[m ->]]; [by left|right; eauto].
Qed.

Lemma of_int_fkey n :
  ∃ a, fkey (binary64.of_int n) = Some a ∧ 0 <= a.1.1 <= 1.
Proof.
  unfold fkey. destruct (of_int_shape n) as [->|(m&e&->)]; simpl.
  - eexists. split; [done|simpl; lia].
  - eexists. split; [done|simpl; lia].
Qed.

Lemma mul_mono x y n m e :
  FloatOps.Prim2SF n = S754_finite false m e →
  PrimFloat.leb x y = true →
  PrimFloat.leb (PrimFloat.mul x n) (PrimFloat.mul y n) = true.
Proof.
  intros Hn Hxy. rewrite FloatAxioms.leb_spec in *.
  rewrite !FloatAxioms.mul_spec, Hn.
  pose proof (FloatAxioms.Prim2SF_valid n) as Vn. rewrite Hn in Vn.
  apply SFmul_mono; [apply FloatAxioms.Prim2SF_valid..|done|done].
Qed.

Lemma mul_zero_fkey x n :
  FloatOps.Prim2SF n = S754_zero false →
  fkey (PrimFloat.mul x n) = None ∨ fkey (PrimFloat.mul x n) = Some (0, 0, 0).
Proof.
  intros Hn. unfold fkey. rewrite FloatAxioms.mul_spec, Hn.
  destruct (FloatOps.Prim2SF x) as [s|s| |s m e]; simpl; auto.
Qed.

(** Not NaN: the product of a float in [0, 1] with an integer. *)


End ieee_facts.

(** * The cell in binary64 *)

(** ** The arrangement by name *)

Section stable.
Context {F : Type}.
Implicit Types (s : notebook_of F) (srt l : list ref) (nm : string).

Lemma filter_sorted_docs s nm :
  filter (λ r, name_of s r = nm) (sorted_docs s)
  = filter (λ r, name_of s r = nm) (docs s).
Proof.
  unfold sorted_docs. rewrite (filter_snd s nm _ (pairs_wf s)).
  rewrite filter_sort_by_key.
  by rewrite <- (filter_snd s nm _ (pairs_wf_unsorted s)), pairs_snd.
Qed.

Lemma sorted_docs_by_name s : sorted_by_name s (sorted_docs s).
Proof. split; [apply sorted_docs_ascending|apply filter_sorted_docs]. Qed.

Lemma filter_head_elem_of s r l1 l2 :
  filter (λ r', name_of s r' = name_of s r) (r :: l1)
  = filter (λ r', name_of s r' = name_of s r) l2 →
  r ∈ l2.
Proof.
  rewrite filter_cons_True by done. intros Hf.
  assert (Hin : r ∈ filter (λ r', name_of s r' = name_of s r) l2).
  { rewrite <- Hf. by left. }
  by apply list_elem_of_filter in Hin as [_ ?].
Qed.

Lemma head_name_le s a l b :
  Forall (name_le s a) l → b ∈ a :: l → name_le s a b.
Proof.
  intros Hall [->|Hin]%elem_of_cons; [by unfold name_le|].
  by apply (proj1 (Forall_forall _ _) Hall).
Qed.

(** Two arrangements ascending by name in which the documents of each
    name come in the same order are the same arrangement. *)
Lemma name_sorted_filter_eq s l1 l2 :
  StronglySorted (name_le s) l1 → StronglySorted (name_le s) l2 →
  (∀ nm, filter (λ r, name_of s r = nm) l1
         = filter (λ r, name_of s r = nm) l2) →
  l1 = l2.
Proof.
  intros H1. revert l2. induction H1 as [|a l1 Hs1 IH Hall1]; intros l2 H2 Hf.
  { destruct l2 as [|b l2]; [done|]. symmetry in Hf.
    by apply (filter_head_elem_of s b l2 []), elem_of_nil in Hf. }
  destruct H2 as [|b l2 Hs2 Hall2].
  { by apply (filter_head_elem_of s a l1 []), elem_of_nil in Hf. }
  assert (Hab : name_of s a = name_of s b).
  { apply (anti_symm String.le).
    - apply (head_name_le s a l1 b Hall1).
      symmetry in Hf. by apply (filter_head_elem_of s b l2).
    - apply (head_name_le s b l2 a Hall2).
      by apply (filter_head_elem_of s a l1). }
  pose proof (Hf (name_of s a)) as Ha.
  rewrite filter_cons_True in Ha by done.
  rewrite (filter_cons_True _ b) in Ha by done.
  injection Ha as -> Ht. f_equal. apply IH; [done|]. intros nm.
  specialize (Hf nm). rewrite !(filter_cons _ b) in Hf.
  case_decide; [by injection Hf|done].
Qed.

(** The stable arrangement by name is the one the cell walks. *)
Lemma sorted_by_name_unique s srt : sorted_by_name s srt → srt = sorted_docs s.
Proof.
  intros [Hs Hf]. apply (name_sorted_filter_eq s); [done|..].
  - apply sorted_docs_ascending.
  - intros nm. by rewrite Hf, filter_sorted_docs.
Qed.

Lemma name_le_lt_sorted s l :
  NoDup (name_of s <$> l) →
  StronglySorted (name_le s) l → StronglySorted (name_lt s) l.
Proof.
  induction l as [|r l IH]; [constructor|].
  rewrite fmap_cons, NoDup_cons. intros [Hr Hnd].
  inversion_clear 1 as [|?? Hs Hall]. constructor; [by apply IH|].
  apply Forall_forall. intros r' Hin. apply ltb_true_iff. split.
  - by apply (proj1 (Forall_forall _ _) Hall).
  - intros Heq. apply Hr. rewrite Heq. by apply list_elem_of_fmap_2.
Qed.

(** With unique names, any arrangement of [docs] ascending by name. *)
Lemma sorted_by_name_intro s srt :
  unique_names s → srt ≡ₚ docs s → StronglySorted (name_le s) srt →
  sorted_by_name s srt.
Proof.
  intros Hu Hp Hs. rewrite (sorted_docs_unique s srt Hp).
  { apply sorted_docs_by_name. }
  apply name_le_lt_sorted; [|done]. unfold unique_names in Hu.
  by rewrite Hp.
Qed.
End stable.

(** ** Comparing an [int] with a product *)

Section float_order.
Import PrimFloat ieee ieee_facts.
Implicit Types (f g x : PrimFloat.float) (N i n : nat).
Implicit Types (a b c : Z * Z * Z) (sp : PrimFloat.float * PrimFloat.float).

Lemma ord_lt_le_trans a b c : ord_lt a b → ord_le b c → ord_lt a c.
Proof. unfold ord_lt, ord_le. lia. Qed.

Lemma ord_le_trans a b c : ord_le a b → ord_le b c → ord_le a c.
Proof. unfold ord_le. lia. Qed.

Lemma ord_not_lt a b : ¬ ord_lt a b ↔ ord_le b a.
Proof. unfold ord_lt, ord_le. lia. Qed.

(** An [int] converted is zero or a positive number. *)
Lemma of_int_key n :
  ∃ a, fkey (binary64.of_int n) = Some a ∧ (a = (0, 0, 0)%Z ∨ a.1.1 = 1%Z).
Proof.
  unfold fkey. destruct (of_int_shape n) as [->|(m&e&->)]; simpl; eauto.
Qed.

Lemma int_lt_true i x :
  float_cell.int_lt i x = true ↔
  ∃ a c, fkey (binary64.of_int i) = Some a ∧ fkey x = Some c ∧ ord_lt a c.
Proof. apply ltb_fkey. Qed.

Lemma le_int_true x i :
  float_cell.le_int x i = true ↔
  ∃ c a, fkey x = Some c ∧ fkey (binary64.of_int i) = Some a ∧ ord_le c a.
Proof. apply leb_fkey. Qed.

(** [x <= i] excludes [i < x]; where [x] is a number, one of them holds. *)
Lemma le_int_not_lt x i :
  float_cell.le_int x i = true → float_cell.int_lt i x = false.
Proof.
  intros (c&a&Hc&Ha&Hle)%le_int_true. apply not_true_is_false.
  intros (a'&c'&Ha'&Hc'&Hlt)%int_lt_true.
  rewrite Ha in Ha'. rewrite Hc in Hc'. simplify_eq.
  by apply ord_not_lt in Hle.
Qed.


(** The product grows with the fraction, as far as the comparison of the
    loop can tell. *)
Lemma times_mono f g N i :
  PrimFloat.leb f g = true →
  float_cell.int_lt i (float_cell.times f N) = true →
  float_cell.int_lt i (float_cell.times g N) = true.
Proof.
  intros Hfg. unfold float_cell.times.
  destruct (of_int_shape N) as [HN|(m&e&HN)].
  - intros (a&c&Ha&Hc&Hlt)%int_lt_true.
    destruct (of_int_key i) as (a'&Ha'&Hcls). rewrite Ha in Ha'.
    injection Ha' as <-.
    destruct (mul_zero_fkey f _ HN) as [Hn|Hz]; rewrite Hc in *; [done|].
    injection Hz as ->. unfold ord_lt in Hlt.
    destruct Hcls as [->|Hcls]; simpl in *; lia.
  - pose proof (mul_mono f g _ m e HN Hfg) as (c1&c2&H1&H2&Hle)%leb_fkey.
    intros (a&c&Ha&Hc&Hlt)%int_lt_true. rewrite H1 in Hc.
    injection Hc as <-. apply int_lt_true. exists a, c2.
    split; [done|]. split; [done|]. by apply (ord_lt_le_trans _ c1).
Qed.






Lemma float_branch_Dev sp N i :
  float_cell.branch sp N i = Dev ↔
  float_cell.int_lt i (float_cell.times sp.1 N) = false
  ∧ float_cell.int_lt i (float_cell.times sp.2 N) = true.
Proof.
  unfold float_cell.branch.
  destruct (float_cell.int_lt _ (float_cell.times sp.1 N));
    [intuition congruence|].
  destruct (float_cell.int_lt _ _); intuition congruence.
Qed.

Lemma float_branch_Test sp N i :
  float_cell.branch sp N i = Test ↔
  float_cell.int_lt i (float_cell.times sp.1 N) = false
  ∧ float_cell.int_lt i (float_cell.times sp.2 N) = false.
Proof.
  unfold float_cell.branch.
  destruct (float_cell.int_lt _ (float_cell.times sp.1 N));
    [intuition congruence|].
  destruct (float_cell.int_lt _ _); intuition congruence.
Qed.

(** With the split points in the wrong order the [elif] is never taken. *)
Lemma flipped_no_dev sp N i :
  PrimFloat.ltb sp.2 sp.1 = true → float_cell.branch sp N i ≠ Dev.
Proof.
  intros Hlt [H1 H2]%float_branch_Dev.
  assert (Hle : PrimFloat.leb sp.2 sp.1 = true).
  { apply ltb_fkey in Hlt as (a&b&Ha&Hb&Hab). apply leb_fkey.
    exists a, b. split; [done|]. split; [done|].
    unfold ord_lt, ord_le in *. lia. }
  pose proof (times_mono _ _ N i Hle H2). congruence.
Qed.
End float_order.

(** ** The loop in binary64 *)

Section float_loop.
Implicit Types (s : notebook_of PrimFloat.float) (c : label) (r : ref).
Implicit Types (sp : PrimFloat.float * PrimFloat.float).

Lemma float_loop_body_frame i r s : same_frame s (float_cell.loop_body i r s).
Proof.
  unfold float_cell.loop_body, same_frame.
  destruct (float_cell.int_lt _ _); [done|].
  by destruct (float_cell.int_lt _ _).
Qed.

Lemma float_for_loop_frame l s : same_frame s (float_cell.for_loop l s).
Proof.
  revert s. induction l as [|[i [nm r]] l IH]; intros s; simpl; [done|].
  destruct (IH (float_cell.loop_body i r s)) as (?&?&?&?&?&?).
  destruct (float_loop_body_frame i r s) as (?&?&?&?&?&?).
  unfold same_frame. repeat split; congruence.
Qed.

Lemma float_bucket_loop_body c i r s :
  bucket c (float_cell.loop_body i r s) =
  if decide (float_cell.branch (splits s) (ld s) i = c)
  then {[r]} ∪ bucket c s else bucket c s.
Proof.
  unfold float_cell.loop_body, float_cell.branch.
  destruct (float_cell.int_lt _ (float_cell.times _.1 _)); [by destruct c|].
  destruct (float_cell.int_lt _ _); by destruct c.
Qed.

Lemma float_elem_of_bucket_for_loop c l k s r :
  r ∈ bucket c (float_cell.for_loop (enumerate_from k l) s) ↔
  r ∈ bucket c s
  ∨ ∃ i nm, l !! i = Some (nm, r)
            ∧ float_cell.branch (splits s) (ld s) (k + i) = c.
Proof.
  revert k s. induction l as [|[nm' r'] l IH]; intros k s; simpl.
  { split; [by left|]. intros [?|(i&nm&Hi&_)]; [done|].
    by rewrite lookup_nil in Hi. }
  rewrite IH, float_bucket_loop_body.
  destruct (float_loop_body_frame k r' s) as (_&_&->&->&_&_).
  split.
  - intros [Hin|(i&nm&Hi&Hb)].
    + case_decide as Hc; [|by left].
      apply elem_of_union in Hin as [->%elem_of_singleton|?]; [|by left].
      right. exists 0, nm'. by rewrite Nat.add_0_r.
    + right. exists (S i), nm. by rewrite Nat.add_succ_r.
  - intros [Hin|(i&nm&Hi&Hb)].
    + left. case_decide; [|done]. apply elem_of_union. by right.
    + destruct i as [|i]; simpl in Hi.
      * injection Hi as -> ->. rewrite Nat.add_0_r in Hb.
        left. rewrite decide_True by done.
        apply elem_of_union. left. by apply elem_of_singleton.
      * right. exists i, nm. by rewrite Nat.add_succ_r in Hb.
Qed.

Lemma float_elem_of_bucket_partition c sp s r :
  r ∈ bucket c (float_cell.partition_with sp s) ↔
  ∃ i, sorted_docs s !! i = Some r
       ∧ float_cell.branch sp (length (docs s)) i = c.
Proof.
  unfold float_cell.partition_with, enumerate.
  rewrite float_elem_of_bucket_for_loop. simpl.
  change (sort_by_key _) with (sort_by_key (pairs s)).
  unfold sorted_docs. split.
  - intros [Hin|(i&nm&Hi&Hb)]; [by destruct c|].
    exists i. by rewrite list_lookup_fmap, Hi.
  - intros (i&Hi&Hb). right. rewrite list_lookup_fmap in Hi.
    destruct (sort_by_key (pairs s) !! i) as [[nm r']|] eqn:E; [|done].
    injection Hi as ->. by exists i, nm.
Qed.

Lemma float_bucket_at_rank c sp s i r :
  NoDup (docs s) → sorted_docs s !! i = Some r →
  r ∈ bucket c (float_cell.partition_with sp s) ↔
  float_cell.branch sp (length (docs s)) i = c.
Proof.
  intros Hnd Hi. rewrite float_elem_of_bucket_partition. split.
  - intros (j&Hj&Hb). rewrite <- (sorted_docs_perm s) in Hnd.
    by rewrite (NoDup_lookup _ _ _ _ Hnd Hi Hj).
  - intros Hb. by exists i.
Qed.

Lemma float_bucket_cover sp s r :
  r ∈ docs s → ∃ c, r ∈ bucket c (float_cell.partition_with sp s).
Proof.
  rewrite <- (sorted_docs_perm s). intros [i Hi]%list_elem_of_lookup_1.
  exists (float_cell.branch sp (length (docs s)) i).
  apply float_elem_of_bucket_partition. by exists i.
Qed.

Lemma float_exactly_one sp s r :
  NoDup (docs s) → r ∈ docs s →
  ∃ c, r ∈ bucket c (float_cell.partition_with sp s)
       ∧ ∀ c', r ∈ bucket c' (float_cell.partition_with sp s) → c' = c.
Proof.
  intros Hnd Hin. pose proof Hin as Hin'.
  rewrite <- (sorted_docs_perm s) in Hin'.
  apply list_elem_of_lookup_1 in Hin' as [i Hi].
  exists (float_cell.branch sp (length (docs s)) i). split.
  - by apply (float_bucket_at_rank _ sp s i r Hnd Hi).
  - intros c' Hc'. symmetry.
    by apply (float_bucket_at_rank _ sp s i r Hnd Hi).
Qed.
End float_loop.

(** ** The rank rule and totality, in the arithmetic of the code *)



(** C10. For any split points at all, in any order, outside [[0, 1]],
    infinite or not a number, the run completes.  In the stable
    arrangement of the documents by name (there is one), the document at
    each rank is put in the subset of the branch taken there and nothing
    else is put anywhere, so every document of the list is assigned;
    where the list holds each document once, to exactly one subset.  When
    [f1 > f2], dev stays empty and every document at a rank [>= f1*N] is
    in test.  Products and comparisons are those of binary64. *)
Theorem total_without_validation sp (s : notebook_of PrimFloat.float) :
  ∃ s', float_cell.run_partition sp s = Completed s'
    ∧ (∃ srt, sorted_by_name s srt)
    ∧ (∀ srt, sorted_by_name s srt →
         ∀ c r, r ∈ bucket c s' ↔
           ∃ i, srt !! i = Some r
                ∧ float_cell.branch sp (length (docs s)) i = c)
    ∧ (∀ r, r ∈ docs s → ∃ c, r ∈ bucket c s')
    ∧ (NoDup (docs s) → ∀ r, r ∈ docs s →
         ∃ c, r ∈ bucket c s' ∧ ∀ c', r ∈ bucket c' s' → c' = c)
    ∧ (PrimFloat.ltb sp.2 sp.1 = true →
         dev_docs s' = ∅
         ∧ ∀ srt i r, sorted_by_name s srt → srt !! i = Some r →
             float_cell.le_int (float_cell.times sp.1 (length (docs s))) i
               = true →
             r ∈ test_docs s').
Proof.
  exists (float_cell.partition_with sp s). split; [done|]. as_buckets.
  split; [|split; [|split; [|split]]].
  - exists (sorted_docs s). apply sorted_docs_by_name.
  - intros srt ->%sorted_by_name_unique c r.
    apply float_elem_of_bucket_partition.
  - intros r. apply float_bucket_cover.
  - intros Hnd r. by apply float_exactly_one.
  - intros Hlt. split.
    + apply set_eq. intros r. split; [|by intros ?%not_elem_of_empty].
      intros (i&_&Hb)%(float_elem_of_bucket_partition Dev).
      by apply flipped_no_dev in Hb.
    + intros srt i r ->%sorted_by_name_unique Hi Hge.
      apply (float_elem_of_bucket_partition Test). exists i.
      split; [done|]. apply le_int_not_lt in Hge.
      pose proof (flipped_no_dev sp (length (docs s)) i Hlt) as Hnd.
      apply float_branch_Test. split; [done|].
      destruct (float_cell.int_lt i (float_cell.times sp.2 _)) eqn:E; [|done].
      destruct Hnd. by apply float_branch_Dev.
Qed.

Lemma total_without_validation_witness :
  let sp := float_cell.flipped in
  let s := float_cell.fresh abcd [0; 1; 2; 3] in
  NoDup (docs s) ∧ PrimFloat.ltb sp.2 sp.1 = true
  ∧ sorted_by_name s [2; 1; 3; 0]
  ∧ [2; 1; 3; 0] !! 2 = Some 3
  ∧ float_cell.le_int (float_cell.times sp.1 (length (docs s))) 2 = true
  ∧ ∃ s', float_cell.run_partition sp s = Completed s'
     ∧ (∀ r, r ∈ docs s →
          ∃ c, r ∈ bucket c s' ∧ ∀ c', r ∈ bucket c' s' → c' = c)
     ∧ dev_docs s' = ∅
     ∧ 3 ∈ test_docs s'.
Proof.
  intros sp s.
  assert (Hnd : NoDup (docs s)).
  { refine (bool_decide_unpack _ _). vm_compute. exact I. }
  assert (Hlt : PrimFloat.ltb sp.2 sp.1 = true) by reflexivity.
  assert (Hsrt : sorted_by_name s [2; 1; 3; 0]).
  { apply sorted_by_name_intro.
    - unfold unique_names. refine (bool_decide_unpack _ _). vm_compute. exact I.
    - refine (bool_decide_unpack _ _). vm_compute. exact I.
    - refine (bool_decide_unpack _ _). vm_compute. exact I. }
  assert (Hi : [2; 1; 3; 0] !! 2 = Some 3) by reflexivity.
  assert (Hge : float_cell.le_int
                  (float_cell.times sp.1 (length (docs s))) 2 = true)
    by reflexivity.
  repeat (split; [assumption|]).
  destruct (total_without_validation sp s) as (s'&Hr&_&_&_&H1&H2).
  exists s'. split; [exact Hr|]. split; [exact (H1 Hnd)|].
  split; [exact (proj1 (H2 Hlt))|].
  exact (proj2 (H2 Hlt) _ _ _ Hsrt Hi Hge).
Defined.
